(** * config-ninja: the AppConfig backend and the command-line controllers

    A shallow embedding of [config_ninja/contrib/appconfig.py] and
    [config_ninja/cli.py], and the properties of the synchronisation engine
    proved about it.

    Conventions of the embedding:
    - a Python [str] is represented by its UTF-8 encoding (a [string]); two
      [str] objects are equal exactly when their encodings are;
    - [bytes] are a [string] as well, and [bytes.decode()] checks that the
      bytes are well-formed UTF-8;
    - a raised exception is a value of type [exn]; a call that may raise
      returns [exn + A];
    - a [dict] of the settings is the list of its items, in insertion
      order; the file system is a [gmap] from paths to files and
      directories;
    - what a generator or a coroutine does is the list of the events it
      performs, in program order. *)

From Stdlib Require Import QArith Ascii.
From stdpp Require Import gmap strings list fin_maps pretty.

Set Warnings "-register-all".

(** ** Python values shared by the two modules *)

Module Py.

(** The exceptions that occur in the two source files. [OtherError] stands
    for an exception of any class that the code neither raises itself nor
    catches. *)
Inductive exn :=
| BadRequestException (Message : string)
| UnicodeDecodeError
| ValueError (msg : string)
| KeyError (key : string)
| TypeError (msg : string)
| FileNotFoundError
| FileExistsError
| NotADirectoryError
| IsADirectoryError
| Exit (code : Z)
| OtherError (cls msg : string).

#[global] Instance exn_eq_dec : EqDecision exn.
Proof. solve_decision. Defined.

(** The bytes of a string, as numbers. *)
Fixpoint bytes_of (s : string) : list N :=
  match s with
  | EmptyString => []
  | String a s' => Ascii.N_of_ascii a :: bytes_of s'
  end.

(** [utf8_check need lo hi bs]: the strict UTF-8 decoder's acceptance test.
    [need] continuation bytes are still owed to the current code point, the
    first of them within [lo..hi] (which rules out overlong forms, surrogates
    and code points above U+10FFFF). *)
Fixpoint utf8_check (need : nat) (lo hi : N) (bs : list N) : bool :=
  match bs with
  | [] => match need with O => true | S _ => false end
  | b :: bs' =>
      match need with
      | S n => (lo <=? b)%N && (b <=? hi)%N && utf8_check n 128 191 bs'
      | O =>
          if (b <? 128)%N then utf8_check 0 128 191 bs'
          else if (194 <=? b)%N && (b <=? 223)%N then utf8_check 1 128 191 bs'
          else if (b =? 224)%N then utf8_check 2 160 191 bs'
          else if (b =? 237)%N then utf8_check 2 128 159 bs'
          else if (225 <=? b)%N && (b <=? 239)%N then utf8_check 2 128 191 bs'
          else if (b =? 240)%N then utf8_check 3 144 191 bs'
          else if (241 <=? b)%N && (b <=? 243)%N then utf8_check 3 128 191 bs'
          else if (b =? 244)%N then utf8_check 3 128 143 bs'
          else false
      end
  end.

(** [bytes.decode()]: the text, or [UnicodeDecodeError]. *)
Definition bytes_decode (content : string) : exn + string :=
  if utf8_check 0 128 191 (bytes_of content) then inr content
  else inl UnicodeDecodeError.

(** Sequencing of calls that only return or raise. *)
#[global] Instance result_ret : MRet (sum exn) := λ A a, inr a.

#[global] Instance result_bind : MBind (sum exn) := λ A B f r,
  match r with
  | inr a => f a
  | inl exc => inl exc
  end.

(** The line feed and the double quote. *)
Definition nl : string := String (ascii_of_nat 10) EmptyString.
Definition dq : string := String (ascii_of_nat 34) EmptyString.

End Py.

Export Py.

(** ** [config_ninja.contrib.appconfig] *)

Module AppConfig.

Definition MINIMUM_POLL_INTERVAL_SECONDS : Z := 60.

(** *** The wire contract of the [appconfigdata] client *)

(** The response of [get_latest_configuration]; [Configuration] holds the
    bytes that [resp['Configuration'].read()] returns. *)
Record response := {
  NextPollConfigurationToken : string;
  NextPollIntervalInSeconds : Z;
  Configuration : string;
}.

#[global] Instance response_eq_dec : EqDecision response.
Proof. solve_decision. Defined.

(** What the service answers during one poll session: the outcome of
    [start_configuration_session] (the initial token) and the outcomes of the
    successive [get_latest_configuration] calls, in the order of the calls. *)
Record session_script := {
  start_configuration_session : exn + string;
  get_latest_configuration : list (exn + response);
}.

Record AppConfigBackend := {
  application_id : string;
  configuration_profile_id : string;
  environment_id : string;
}.

(** What a poll session does, as seen from outside the generator. A sleep
    lasts a rational number of seconds: [interval / 2] is kept exact. *)
Inductive event :=
| StartConfigurationSession
    (ApplicationIdentifier EnvironmentIdentifier
       ConfigurationProfileIdentifier : string)
    (RequiredMinimumPollIntervalInSeconds : Z)
| GetLatestConfiguration (ConfigurationToken : string)
| Sleep (seconds : Q)
| Yield (content : string)
| Raise (e : exn).

(** *** [AppConfigBackend.poll] *)

(** The body of one turn of [while True], after the request carrying [token]
    was answered by [r]: the events of the turn, and the token for the next
    turn ([None] when the turn raised). *)
Definition poll_iteration (interval : Z) (token : string)
    (r : exn + response) : list event * option string :=
  match r with
  | inl (BadRequestException Message) =>
      if bool_decide (Message ≠ "Request too early")
      then ([Raise (BadRequestException Message)], None)
      else ([Sleep (inject_Z interval / 2)], Some token)
  | inl exc => ([Raise exc], None)
  | inr resp =>
      let token := NextPollConfigurationToken resp in
      let content := Configuration resp in
      if bool_decide (content ≠ "")
      then match bytes_decode content with
           | inr text =>
               ([Yield text; Sleep (inject_Z (NextPollIntervalInSeconds resp))],
                Some token)
           | inl exc => ([Raise exc], None)
           end
      else ([Sleep (inject_Z (NextPollIntervalInSeconds resp))], Some token)
  end.

(** The loop. Each turn sends one request and consumes one answer of the
    script; when the script is used up the last request stays unanswered. *)
Fixpoint poll_loop (interval : Z) (token : string)
    (answers : list (exn + response)) : list event :=
  GetLatestConfiguration token ::
  match answers with
  | [] => []
  | r :: answers' =>
      let '(evs, next) := poll_iteration interval token r in
      evs ++ match next with
             | Some token' => poll_loop interval token' answers'
             | None => []
             end
  end.

Definition poll (self : AppConfigBackend) (interval : Z)
    (srv : session_script) : list event :=
  StartConfigurationSession (application_id self) (environment_id self)
    (configuration_profile_id self) interval ::
  match start_configuration_session srv with
  | inl exc => [Raise exc]
  | inr token => poll_loop interval token (get_latest_configuration srv)
  end.

(** [AppConfigBackend.get]: a session of its own and one request;
    [start] and [answer] are what the service replies to the two calls. *)
Definition get (self : AppConfigBackend) (start : exn + string)
    (answer : exn + response) : exn + string :=
  token ← start;
  resp ← answer;
  bytes_decode (Configuration resp).

(** *** Observations on a trace *)

(** The events up to the next request. *)
Fixpoint before_request (tr : list event) : list event :=
  match tr with
  | [] => []
  | GetLatestConfiguration _ :: _ => []
  | e :: tr' => e :: before_request tr'
  end.

(** The trace cut at its requests: the token of each request and what
    happened between it and the following request. *)
Fixpoint rounds (tr : list event) : list (string * list event) :=
  match tr with
  | [] => []
  | GetLatestConfiguration token :: tr' =>
      (token, before_request tr') :: rounds tr'
  | _ :: tr' => rounds tr'
  end.

(** The strings the generator yields, in order. *)
Fixpoint yields (tr : list event) : list string :=
  match tr with
  | [] => []
  | Yield s :: tr' => s :: yields tr'
  | _ :: tr' => yields tr'
  end.

(** The exception that ended the trace, if one did. *)
Definition raised (tr : list event) : option exn :=
  match last tr with
  | Some (Raise e) => Some e
  | _ => None
  end.

(** How many times the trace opens a session. *)
Fixpoint session_starts (tr : list event) : nat :=
  match tr with
  | [] => 0
  | StartConfigurationSession _ _ _ _ :: tr' => S (session_starts tr')
  | _ :: tr' => session_starts tr'
  end.

(** *** Name resolution: [_get_id_from_name] and [new] *)

Inductive OperationName :=
| list_applications
| list_configuration_profiles
| list_environments.

Definition operation_str (operation_name : OperationName) : string :=
  match operation_name with
  | list_applications => "list_applications"
  | list_configuration_profiles => "list_configuration_profiles"
  | list_environments => "list_environments"
  end.

(** The [appconfig] client, as far as name resolution uses it: for an
    operation, the keyword arguments of [paginate] and a search expression,
    the values the page iterator's search produces, in the order the service
    returns them. *)
Definition AppConfigClient : Type :=
  OperationName → list (string * string) → string → exn + list string.

Record Session := { appconfig : AppConfigClient }.

Record warning := {
  message : string;
  category : string;
}.

(** A call that may emit warnings before it returns or raises. *)
Definition W (A : Type) : Type := list warning * (exn + A).

#[global] Instance W_ret : MRet W := λ A a, ([], inr a).

#[global] Instance W_bind : MBind W := λ A B f m,
  match m with
  | (ws, inr a) => let '(ws', r) := f a in (ws ++ ws', r)
  | (ws, inl exc) => (ws, inl exc)
  end.

Definition warn (msg cat : string) : W unit :=
  ([{| message := msg; category := cat |}], inr tt).

Section WithRepr.

(** Python's [repr] of a [str], a parameter of the model. *)
Variable repr : string → string.

(** [repr] of a list of [str] *)
Definition repr_list (l : list string) : string :=
  "[" +:+ String.concat ", " (repr <$> l) +:+ "]".

Definition search_expression (name : string) : string :=
  "Items[?Name == `" +:+ name +:+ "`].Id".

Definition not_found_message (operation_name : OperationName)
    (name : string) : string :=
  "no " +:+ dq +:+ operation_str operation_name +:+ dq
  +:+ " results found for Name=" +:+ dq +:+ name +:+ dq.

Definition multiple_found_message (operation_name : OperationName)
    (name : string) (ids : list string) : string :=
  "'" +:+ operation_str operation_name +:+ "' found "
  +:+ pretty (length ids) +:+ " results for Name='" +:+ name +:+ "'; '"
  +:+ default EmptyString (ids !! 0)
  +:+ "' will be used and the others ignored: " +:+ repr_list (drop 1 ids).

Definition _get_id_from_name (name : string) (operation_name : OperationName)
    (client : AppConfigClient) (kwargs : list (string * string)) : W string :=
  match client operation_name kwargs (search_expression name) with
  | inl exc => ([], inl exc)
  | inr ids =>
      if bool_decide (ids = [])
      then ([], inl (ValueError (not_found_message operation_name name)))
      else
        _ ← (if bool_decide (1 < length ids)
             then warn (multiple_found_message operation_name name ids)
                    "RuntimeWarning"
             else mret tt);
        match ids !! 0 with
        | Some id => mret id
        | None => ([], inl (OtherError "IndexError" "list index out of range"))
        end
  end.

Definition get_application_id (name : string) (client : AppConfigClient)
    : W string :=
  _get_id_from_name name list_applications client [].

Definition get_configuration_profile_id (name : string)
    (client : AppConfigClient) (application_id : string) : W string :=
  _get_id_from_name name list_configuration_profiles client
    [("ApplicationId", application_id)].

Definition get_environment_id (name : string) (client : AppConfigClient)
    (application_id : string) : W string :=
  _get_id_from_name name list_environments client
    [("ApplicationId", application_id)].

Definition new (application_name configuration_profile_name
    environment_name : string) (session : Session) : W AppConfigBackend :=
  let appconfig_client := appconfig session in
  application_id ← get_application_id application_name appconfig_client;
  configuration_profile_id ←
    get_configuration_profile_id configuration_profile_name appconfig_client
      application_id;
  environment_id ←
    get_environment_id environment_name appconfig_client application_id;
  mret {| application_id := application_id;
          configuration_profile_id := configuration_profile_id;
          environment_id := environment_id |}.

End WithRepr.

(** [s] has [sub] somewhere inside. *)
Definition occurs_in (sub s : string) : Prop :=
  ∃ before after, s = before +:+ sub +:+ after.

(** [repr] for identifiers made of letters, digits and dashes, as the
    service issues them: the text between single quotes. *)
Definition repr_plain (s : string) : string := "'" +:+ s +:+ "'".

(** The sessions of the documentation's examples: every search finds no
    id, one id, two ids. *)
Definition mock_session_with_0_ids : Session :=
  {| appconfig := λ _ _ _, inr [] |}.
Definition mock_session_with_1_id : Session :=
  {| appconfig := λ _ _ _, inr ["id-1"] |}.
Definition mock_session_with_2_ids : Session :=
  {| appconfig := λ _ _ _, inr ["id-1"; "id-2"] |}.

(** The contents of the successful answers that are not empty, in order. *)
Fixpoint nonempty_contents (answers : list (exn + response)) : list string :=
  match answers with
  | [] => []
  | inr resp :: answers' =>
      if bool_decide (Configuration resp ≠ "")
      then Configuration resp :: nonempty_contents answers'
      else nonempty_contents answers'
  | inl _ :: answers' => nonempty_contents answers'
  end.

(** No element of the list is followed by an equal one. *)
Definition no_consecutive_duplicates (l : list string) : Prop :=
  ∀ i s, l !! i = Some s → l !! S i ≠ Some s.

(** The specification's poll-session state has a current interval that is
    replaced by the server-provided next interval on every successful
    response. [spec_interval_in_effect interval answers i] follows these
    words: it is the interval in effect when request [i] is answered. *)
Fixpoint spec_interval_in_effect (interval : Z)
    (answers : list (exn + response)) (i : nat) : Z :=
  match i, answers with
  | S i', inr resp :: answers' =>
      spec_interval_in_effect (NextPollIntervalInSeconds resp) answers' i'
  | S i', inl _ :: answers' => spec_interval_in_effect interval answers' i'
  | _, _ => interval
  end.

(** The error the loop recovers from. *)
Definition too_early : exn := BadRequestException "Request too early".

(** An example session: the service asks for 120 seconds between polls,
    then refuses the next request as too early. *)
Definition backend_1 : AppConfigBackend :=
  {| application_id := "app-id";
     configuration_profile_id := "conf-id";
     environment_id := "env-id" |}.

Definition script_adjusted : session_script :=
  {| start_configuration_session := inr "t0";
     get_latest_configuration :=
       [inr {| NextPollConfigurationToken := "t1";
               NextPollIntervalInSeconds := 120;
               Configuration := "key_0: value_0" |};
        inl too_early;
        inr {| NextPollConfigurationToken := "t2";
               NextPollIntervalInSeconds := 120;
               Configuration := "" |}] |}.

(** The service sends the same content in two successive responses. *)
Definition script_repeated : session_script :=
  {| start_configuration_session := inr "t0";
     get_latest_configuration :=
       [inr {| NextPollConfigurationToken := "t1";
               NextPollIntervalInSeconds := 60;
               Configuration := "v1" |};
        inr {| NextPollConfigurationToken := "t2";
               NextPollIntervalInSeconds := 60;
               Configuration := "v1" |}] |}.

(** The service reports "no change" by an empty content, then fails. *)
Definition script_fatal : session_script :=
  {| start_configuration_session := inr "t0";
     get_latest_configuration :=
       [inr {| NextPollConfigurationToken := "t1";
               NextPollIntervalInSeconds := 60;
               Configuration := "v1" |};
        inr {| NextPollConfigurationToken := "t2";
               NextPollIntervalInSeconds := 60;
               Configuration := "" |};
        inl (BadRequestException "Invalid token");
        inr {| NextPollConfigurationToken := "t3";
               NextPollIntervalInSeconds := 60;
               Configuration := "v2" |}] |}.

(** A value, no change, a new value. *)
Definition script_changes : session_script :=
  {| start_configuration_session := inr "t0";
     get_latest_configuration :=
       [inr {| NextPollConfigurationToken := "t1";
               NextPollIntervalInSeconds := 60;
               Configuration := "v1" |};
        inr {| NextPollConfigurationToken := "t2";
               NextPollIntervalInSeconds := 60;
               Configuration := "" |};
        inr {| NextPollConfigurationToken := "t3";
               NextPollIntervalInSeconds := 60;
               Configuration := "v2" |}] |}.

End AppConfig.

(** ** The file system and the terminal *)

Module Os.

(** [pathlib.Path]: whether the path starts at the root, and its components.
    Neither [..] nor symbolic links are resolved. *)
Record Path := { absolute : bool; parts : list string }.

#[global] Instance Path_eq_dec : EqDecision Path.
Proof. solve_decision. Defined.

Definition Path_to_pair (p : Path) : bool * list string :=
  (absolute p, parts p).
Definition Path_of_pair (x : bool * list string) : Path :=
  {| absolute := x.1; parts := x.2 |}.

#[global] Instance Path_countable : Countable Path :=
  inj_countable' Path_to_pair Path_of_pair
    (λ p, match p with Build_Path _ _ => eq_refl end).

(** The pieces of [s] between slashes; [cur] is the piece being read. *)
Fixpoint split_slash (s : string) (cur : string) : list string :=
  match s with
  | EmptyString => [cur]
  | String "/"%char s' => cur :: split_slash s' EmptyString
  | String c s' => split_slash s' (cur +:+ String c EmptyString)
  end.

Definition starts_with_slash (s : string) : bool :=
  match s with
  | String "/"%char _ => true
  | _ => false
  end.

(** [Path(s)]: empty pieces and [.] pieces are dropped. *)
Definition Path_of_str (s : string) : Path :=
  {| absolute := starts_with_slash s;
     parts := filter (λ c, c ≠ EmptyString ∧ c ≠ ".")
                (split_slash s EmptyString) |}.

(** [path.parent]; the root and the current directory are their own parent. *)
Definition parent (p : Path) : Path :=
  {| absolute := absolute p; parts := removelast (parts p) |}.

(** [path.name]: the last component, or the empty string. *)
Definition name (p : Path) : string := List.last (parts p) EmptyString.

Inductive node :=
| File (content : string)
| Dir.

(** The state outside the program: the file system, and what was printed,
    one entry for each call of [print]. The file system is keyed by the
    path as it is spelled: what is written through a spelling is read back
    through that spelling, and two spellings of one file (through [..], the
    working directory or a link) are two keys. *)
Record world := {
  fs : gmap Path node;
  stdout : list string;
}.

(** What is at [p]. The root and the current directory always exist. *)
Definition node_at (files : gmap Path node) (p : Path) : option node :=
  match parts p with
  | [] => Some Dir
  | _ => files !! p
  end.

Definition is_dir (files : gmap Path node) (p : Path) : bool :=
  match node_at files p with
  | Some Dir => true
  | _ => false
  end.

(** [os.mkdir(p)] *)
Definition os_mkdir (p : Path) (files : gmap Path node)
    : exn + gmap Path node :=
  match node_at files p with
  | Some _ => inl FileExistsError
  | None =>
      match node_at files (parent p) with
      | None => inl FileNotFoundError
      | Some (File _) => inl NotADirectoryError
      | Some Dir => inr (<[p := Dir]> files)
      end
  end.

(** [Path.mkdir(parents=True, exist_ok=True)], as [pathlib] implements it:
    try [os.mkdir]; when the parent is missing create it the same way and
    try again; any other [OSError] is dropped if [p] is a directory. [n] is
    the number of components of [p]. *)
Fixpoint mkdir_from (n : nat) (p : Path) (files : gmap Path node)
    : exn + gmap Path node :=
  match os_mkdir p files with
  | inr files' => inr files'
  | inl FileNotFoundError =>
      match n with
      | O => inl FileNotFoundError
      | S n' =>
          match mkdir_from n' (parent p) files with
          | inl exc => inl exc
          | inr files1 =>
              match os_mkdir p files1 with
              | inr files2 => inr files2
              | inl exc => if is_dir files1 p then inr files1 else inl exc
              end
          end
      end
  | inl exc => if is_dir files p then inr files else inl exc
  end.

Definition mkdir_parents_exist_ok (p : Path) (files : gmap Path node)
    : exn + gmap Path node :=
  mkdir_from (length (parts p)) p files.

(** [open(p, 'w')] followed by writing [content]: the file is created or
    replaced. *)
Definition fs_write_text (p : Path) (content : string)
    (files : gmap Path node) : exn + gmap Path node :=
  match node_at files p with
  | Some Dir => inl IsADirectoryError
  | _ =>
      match node_at files (parent p) with
      | None => inl FileNotFoundError
      | Some (File _) => inl NotADirectoryError
      | Some Dir => inr (<[p := File content]> files)
      end
  end.

(** Every directory of [files] is a directory of [files']. *)
Definition keeps_dirs (files files' : gmap Path node) : Prop :=
  ∀ q, is_dir files q = true → is_dir files' q = true.

(** The path made of the first [k] components of [p]. *)
Definition ancestor (k : nat) (p : Path) : Path :=
  {| absolute := absolute p; parts := take k (parts p) |}.

Definition is_file (files : gmap Path node) (p : Path) : bool :=
  match node_at files p with
  | Some (File _) => true
  | _ => false
  end.

(** Whatever exists lies in a directory, as in every file system. *)
Definition consistent (files : gmap Path node) : Prop :=
  ∀ p n, node_at files p = Some n → is_dir files (parent p) = true.

End Os.

(** ** [config_ninja.cli] *)

Module Cli.
Import Os.

(** *** Values of the settings file and of configuration data *)

(** A [dict] keeps its items in insertion order, which is the order a
    [for] loop visits the keys in. *)
Inductive value :=
| VNone
| VBool (b : bool)
| VInt (n : Z)
| VStr (s : string)
| VList (l : list value)
| VDict (items : list (string * value)).

Fixpoint assoc (k : string) (items : list (string * value)) : option value :=
  match items with
  | [] => None
  | (k', v) :: items' => if decide (k = k') then Some v else assoc k items'
  end.

(** [bool(v)] *)
Definition truthy (v : value) : bool :=
  match v with
  | VNone => false
  | VBool b => b
  | VInt n => negb (n =? 0)%Z
  | VStr s => negb (bool_decide (s = EmptyString))
  | VList l => match l with [] => false | _ => true end
  | VDict items => match items with [] => false | _ => true end
  end.

(** [v[k]] for a string key *)
Definition getitem (v : value) (k : string) : exn + value :=
  match v with
  | VDict items =>
      match assoc k items with
      | Some x => inr x
      | None => inl (KeyError k)
      end
  | _ => inl (TypeError "indices must be integers")
  end.

(** [v.get(k, default)] *)
Definition dict_get (v : value) (k : string) (dflt : value) : exn + value :=
  match v with
  | VDict items => inr (default dflt (assoc k items))
  | _ => inl (OtherError "AttributeError" "get")
  end.

(** [Path(v)] *)
Definition Path_of_value (v : value) : exn + Path :=
  match v with
  | VStr s => inr (Path_of_str s)
  | _ => inl (TypeError "expected str, bytes or os.PathLike object")
  end.

(** *** Computations that print, touch the file system, and may raise *)

Definition M (A : Type) : Type := world → world * (exn + A).

#[global] Instance M_ret : MRet M := λ A a w, (w, inr a).

#[global] Instance M_bind : MBind M := λ A B f m w,
  match m w with
  | (w', inr a) => f a w'
  | (w', inl exc) => (w', inl exc)
  end.

Definition raise {A} (exc : exn) : M A := λ w, (w, inl exc).

(** A step that neither prints nor touches the file system. *)
Definition lift {A} (r : exn + A) : M A := λ w, (w, r).

(** [rich.print(s)] *)
Definition print (s : string) : M unit := λ w,
  ({| fs := fs w; stdout := stdout w ++ [s] |}, inr tt).

(** [p.write_text(content)] *)
Definition write_text (p : Path) (content : string) : M unit := λ w,
  match fs_write_text p content (fs w) with
  | inl exc => (w, inl exc)
  | inr files => ({| fs := files; stdout := stdout w |}, inr tt)
  end.

(** [p.mkdir(parents=True, exist_ok=True)] *)
Definition mkdir (p : Path) : M unit := λ w,
  match mkdir_parents_exist_ok p (fs w) with
  | inl exc => (w, inl exc)
  | inr files => ({| fs := files; stdout := stdout w |}, inr tt)
  end.

(** *** Collaborators *)

(** A backend instance, seen from the controller: what [get()] returns when
    it is called, and what the stream of [poll()] delivers: its items, then
    the exception that ends it, or a normal end. *)
Record Backend := {
  backend_get : exn + string;
  backend_poll : list string * option exn;
}.

(** A backend class: its [new] factory and its constructor, applied to the
    [kwargs] value of the settings. *)
Record backend_class := {
  class_new : value → exn + Backend;
  class_call : value → exn + Backend;
}.

(** The parts of the program that [cli.py] imports and that are not among
    the sources ([config_ninja.backend] and [config_ninja.contrib]), and the
    third-party libraries ([jinja2], [yaml]), taken as parameters:
    [DUMPERS] are the keys of the serializer table. *)
Class Collaborators := {
  Template : Type;
  DUMPERS : list string;
  loads : value → string → exn + value;
  dumps : string → value → exn + string;
  jinja_compile : string → exn + Template;
  jinja_render : Template → value → exn + string;
  get_backend : value → exn + backend_class;
  yaml_dump : value → string;
}.

Section WithCollaborators.
Context `{Collaborators}.

(** *** [handle_key_errors] *)

Definition missing_key_message (k : string) : string :=
  "[red]ERROR[/]: Missing key: [green]" +:+ k +:+ "[/]" +:+ nl.

(** The managed context around [body]: a [KeyError] that leaves it is
    reported, the settings are printed, and [typer.Exit(1)] is raised. *)
Definition handle_key_errors {A} (objects : value) (body : M A) : M A := λ w,
  match body w with
  | (w', inl (KeyError k)) =>
      (_ ← print (missing_key_message k);
       _ ← print (yaml_dump objects);
       raise (Exit 1)) w'
  | r => r
  end.

(** The world after a missing key [k] was reported. *)
Definition reported (w : world) (k : string) (objects : value) : world :=
  {| fs := fs w;
     stdout := stdout w ++ [missing_key_message k; yaml_dump objects] |}.

(** *** [DestSpec] *)

Inductive format_spec :=
| FormatT (tag : string)
| JinjaTemplate (t : Template).

Record DestSpec := {
  path : Path;
  format : format_spec;
}.

Definition is_template (self : DestSpec) : bool :=
  match format self with
  | JinjaTemplate _ => true
  | FormatT _ => false
  end.

(** *** [jinja2]: loading a template from a directory *)

Definition TemplateNotFound (template : string) : exn :=
  OtherError "TemplateNotFound" template.

(** [FileSystemLoader(searchpath).get_source]: the text of the file
    [searchpath/template], decoded as UTF-8; a parent-directory piece is
    refused. *)
Definition get_source (searchpath : Path) (template : string)
    (files : gmap Path node) : exn + string :=
  if bool_decide (template = "..") then inl (TemplateNotFound template)
  else
    let pieces :=
      if bool_decide (template = EmptyString ∨ template = ".") then []
      else [template] in
    let filename :=
      {| absolute := absolute searchpath;
         parts := parts searchpath ++ pieces |} in
    match node_at files filename with
    | Some (File source) => bytes_decode source
    | _ => inl (TemplateNotFound template)
    end.

(** [Environment(loader=FileSystemLoader(searchpath)).get_template(name)]:
    the file is read and compiled now. *)
Definition get_template (searchpath : Path) (template : string) : M Template :=
  λ w, (w, source ← get_source searchpath template (fs w);
           jinja_compile source).

(** *** [BackendController] *)

Record Settings := { OBJECTS : list (string * value) }.

Record BackendController := {
  backend : Backend;
  dest : DestSpec;
  key : string;
  settings : Settings;
  src_format : value;
}.

(** The [with] block of [_get_dest]: it returns the spec of a serializer
    destination, or leaves the block with the two paths. *)
Definition dest_lookups (objects : value) (key : string)
    : exn + (DestSpec + Path * Path) :=
  entry ← getitem objects key;
  dest ← getitem entry "dest";
  path_v ← getitem dest "path";
  path ← Path_of_value path_v;
  format_v ← getitem dest "format";
  match format_v with
  | VStr fmt =>
      if bool_decide (fmt ∈ DUMPERS)
      then mret (inl {| path := path; format := FormatT fmt |})
      else mret (inr (path, Path_of_str fmt))
  | VNone | VBool _ | VInt _ =>
      template_path ← Path_of_value format_v;
      mret (inr (path, template_path))
  | VList _ | VDict _ => inl (TypeError "unhashable type")
  end.

Definition _get_dest (settings : Settings) (key : string) : M DestSpec :=
  let objects := VDict (OBJECTS settings) in
  r ← handle_key_errors objects (lift (dest_lookups objects key));
  match r with
  | inl spec => mret spec
  | inr (path, template_path) =>
      t ← get_template (parent template_path) (name template_path);
      mret {| path := path; format := JinjaTemplate t |}
  end.

(** The [with] block of [_init_backend]. *)
Definition source_lookups (objects : value) (key : string)
    : exn + (value * Backend) :=
  entry ← getitem objects key;
  source ← getitem entry "source";
  backend_name ← getitem source "backend";
  backend_class ← get_backend backend_name;
  fmt ← dict_get source "format" (VStr "raw");
  new ← dict_get source "new" VNone;
  backend ←
    (if truthy new
     then new ← getitem source "new";
          kwargs ← getitem new "kwargs";
          class_new backend_class kwargs
     else init ← getitem source "init";
          kwargs ← getitem init "kwargs";
          class_call backend_class kwargs);
  mret (fmt, backend).

Definition _init_backend (settings : Settings) (key : string)
    : M (value * Backend) :=
  let objects := VDict (OBJECTS settings) in
  handle_key_errors objects (lift (source_lookups objects key)).

Definition __init__ (settings : option Settings) (key : string)
    : M BackendController :=
  match settings with
  | None =>
      _ ← print "[red]ERROR[/]: Could not load settings.";
      raise (Exit 1)
  | Some settings =>
      '(src_format, backend) ← _init_backend settings key;
      dest ← _get_dest settings key;
      mret {| backend := backend; dest := dest; key := key;
              settings := settings; src_format := src_format |}
  end.

(** [_do]: render [data] as the destination says, and hand the text to
    [action]. *)
Definition _do (self : BackendController) (action : string → M unit)
    (data : value) : M unit :=
  if is_template (dest self) then
    match format (dest self) with
    | JinjaTemplate t =>
        content ← lift (jinja_render t data);
        action content
    | FormatT _ => raise (OtherError "AssertionError" EmptyString)
    end
  else
    match format (dest self) with
    | FormatT fmt =>
        content ← lift (dumps fmt data);
        action content
    | JinjaTemplate _ => raise (TypeError "format")
    end.

Definition get (self : BackendController) : M unit :=
  raw ← lift (backend_get (backend self));
  data ← lift (loads (src_format self) raw);
  _do self print data.

Definition write (self : BackendController) : M unit :=
  raw ← lift (backend_get (backend self));
  data ← lift (loads (src_format self) raw);
  _do self (write_text (path (dest self))) data.

(** [async for content in stream: body(content)] *)
Fixpoint async_for (items : list string) (ending : option exn)
    (body : string → M unit) : M unit :=
  match items with
  | content :: items' => _ ← body content; async_for items' ending body
  | [] =>
      match ending with
      | Some exc => raise exc
      | None => mret tt
      end
  end.

Definition aget (self : BackendController) : M unit :=
  async_for (backend_poll (backend self)).1 (backend_poll (backend self)).2
    (λ content,
       data ← lift (loads (src_format self) content);
       _do self print data).

Definition awrite (self : BackendController) : M unit :=
  async_for (backend_poll (backend self)).1 (backend_poll (backend self)).2
    (λ content,
       data ← lift (loads (src_format self) content);
       _do self (write_text (path (dest self))) data).

(** What [get] and [write] have in common: fetch, decode, render. *)
Definition rendered (self : BackendController) : exn + string :=
  raw ← backend_get (backend self);
  data ← loads (src_format self) raw;
  match format (dest self) with
  | JinjaTemplate t => jinja_render t data
  | FormatT fmt => dumps fmt data
  end.

(** *** The commands *)

Fixpoint for_each {A B} (f : A → M B) (l : list A) : M (list B) :=
  match l with
  | [] => mret []
  | a :: l' => b ← f a; bs ← for_each f l'; mret (b :: bs)
  end.

Definition get_command (settings : option Settings) (key : string)
    (poll : bool) : M unit :=
  ctrl ← __init__ settings key;
  if poll then aget ctrl else get ctrl.

Definition apply (settings : option Settings) (key : string)
    (poll : bool) : M unit :=
  ctrl ← __init__ settings key;
  _ ← mkdir (parent (path (dest ctrl)));
  if poll then awrite ctrl else write ctrl.

(** How far a task has come: it waits for its stream, it has returned, it
    has raised, or it was cancelled. *)
Inductive status :=
| Pending
| Finished
| Failed (exc : exn)
| Cancelled.

(** The coroutine [ctrl.awrite()] as a unit of concurrency: the controller,
    what is left of its stream, and its state. *)
Record task := {
  task_ctrl : BackendController;
  task_items : list string;
  task_end : option exn;
  task_state : status;
}.

Definition task_done (t : task) : bool :=
  match task_state t with
  | Pending => false
  | _ => true
  end.

Definition set_state (t : task) (st : status) : task :=
  {| task_ctrl := task_ctrl t; task_items := task_items t;
     task_end := task_end t; task_state := st |}.

Definition create_task (ctrl : BackendController) : task :=
  {| task_ctrl := ctrl;
     task_items := (backend_poll (backend ctrl)).1;
     task_end := (backend_poll (backend ctrl)).2;
     task_state := Pending |}.

(** The event loop resumes a task when its stream has something for it; the
    task then runs up to the point where it waits for the stream again. *)
Definition resume (t : task) : M task :=
  match task_items t with
  | content :: items' =>
      data ← lift (loads (src_format (task_ctrl t)) content);
      _ ← _do (task_ctrl t) (write_text (path (dest (task_ctrl t)))) data;
      mret {| task_ctrl := task_ctrl t; task_items := items';
              task_end := task_end t; task_state := Pending |}
  | [] =>
      match task_end t with
      | Some exc => raise exc
      | None => mret {| task_ctrl := task_ctrl t; task_items := [];
                        task_end := None; task_state := Finished |}
      end
  end.

(** How [asyncio.run(poll_all())] ends: [poll_all] returned, it raised, or
    the observation stops while tasks still wait. The tasks are given as
    they were then. *)
Inductive run_result :=
| Returned
| Raised (exc : exn) (tasks : list task)
| Running (tasks : list task).

(** [asyncio.run] shuts down: every task that has not ended is cancelled.
    The [CancelledError] is raised inside [awrite] where it waits for its
    stream; neither [awrite] nor [poll] catches it, so the task ends there,
    with what it had left; [asyncio.run] waits until it has. *)
Definition cancel (t : task) : task :=
  match task_state t with
  | Pending => set_state t Cancelled
  | _ => t
  end.

(** After a task has raised. The exception is passed to [gather] and from
    there to [poll_all] and to [asyncio.run] by callbacks of the event loop,
    one round of the loop each; until [asyncio.run] shuts down, the event
    loop goes on resuming the other tasks whose stream has something for
    them: [late] lists these resumptions. An exception that such a task
    raises goes nowhere: [gather] has its result already. *)
Fixpoint wind_down (late : list nat) (tasks : list task) (w : world)
    : world * list task :=
  match late with
  | [] => (w, cancel <$> tasks)
  | i :: late' =>
      match tasks !! i with
      | Some t =>
          if task_done t then wind_down late' tasks w
          else
            match resume t w with
            | (w', inr t') => wind_down late' (<[i := t']> tasks) w'
            | (w', inl exc) =>
                wind_down late' (<[i := set_state t (Failed exc)]> tasks) w'
            end
      | None => wind_down late' tasks w
      end
  end.

(** [asyncio.gather] of the tasks, under [asyncio.run]. [schedule] lists
    the tasks in the order the event loop resumes them, up to the moment
    [asyncio.run] shuts down if a task raises. When every task has
    returned, [gather] returns. The first exception raised by a task is the
    one [gather] raises, and [asyncio.run] after it; what is left of the
    schedule are the resumptions of the other tasks that the event loop
    still makes before the shutdown. *)
Fixpoint gather (schedule : list nat) (tasks : list task) (w : world)
    : world * run_result :=
  if forallb task_done tasks then (w, Returned)
  else
    match schedule with
    | [] => (w, Running tasks)
    | i :: schedule' =>
        match tasks !! i with
        | Some t =>
            if task_done t then gather schedule' tasks w
            else
              match resume t w with
              | (w', inr t') => gather schedule' (<[i := t']> tasks) w'
              | (w', inl exc) =>
                  let '(w'', tasks') :=
                    wind_down schedule'
                      (<[i := set_state t (Failed exc)]> tasks) w' in
                  (w'', Raised exc tasks')
              end
        | None => gather schedule' tasks w
        end
    end.

(** The exception the run raised, and what each task had left of its
    stream when the run ended or the observation stopped. *)
Definition raised_by (res : run_result) : option exn :=
  match res with
  | Raised exc _ => Some exc
  | _ => None
  end.

Definition left_over (res : run_result) : list (list string) :=
  match res with
  | Returned => []
  | Raised _ tasks | Running tasks => task_items <$> tasks
  end.

(** No task had anything left of its stream. *)
Definition every_task_finished (res : run_result) : Prop :=
  Forall (λ items, items = []) (left_over res).

(** The states of the tasks when the run ended or the observation
    stopped. *)
Definition states (res : run_result) : list status :=
  match res with
  | Returned => []
  | Raised _ tasks | Running tasks => task_state <$> tasks
  end.

(** The part of [monitor] before the event loop starts: a controller for
    every key of the settings, then the parent directory of every
    destination. *)
Definition monitor_setup (settings : option Settings)
    : M (list BackendController) :=
  match settings with
  | None => raise (OtherError "AttributeError" "OBJECTS")
  | Some s =>
      controllers ← for_each (__init__ settings) (OBJECTS s).*1;
      _ ← for_each (λ ctrl, mkdir (parent (path (dest ctrl)))) controllers;
      mret controllers
  end.

Definition monitor (settings : option Settings) (schedule : list nat)
    (w : world) : world * run_result :=
  match monitor_setup settings w with
  | (w', inl exc) => (w', Raised exc [])
  | (w', inr controllers) => gather schedule (create_task <$> controllers) w'
  end.

End WithCollaborators.

End Cli.

(** ** The two modules together: example data *)

Module Examples.
Import Os Cli.

(** An [AppConfigBackend] as the controller sees it, when the service
    answers [get()] with [answer] and a poll session as [srv] says. The
    stream is what the session yields up to the last answer of [srv]. *)
Definition appconfig_backend (self : AppConfig.AppConfigBackend)
    (answer : exn + AppConfig.response) (srv : AppConfig.session_script)
    : Backend :=
  {| backend_get :=
       AppConfig.get self (AppConfig.start_configuration_session srv) answer;
     backend_poll :=
       let tr :=
         AppConfig.poll self AppConfig.MINIMUM_POLL_INTERVAL_SECONDS srv in
       (AppConfig.yields tr, AppConfig.raised tr) |}.

(** The keyword argument [k] of a call, a [str]. *)
Definition kwarg (kwargs : value) (k : string) : exn + string :=
  match getitem kwargs k with
  | inr (VStr s) => inr s
  | _ => inl (TypeError ("missing argument: " +:+ k))
  end.

(** The class [AppConfigBackend] for a given service. *)
Definition AppConfigBackend_class (session : AppConfig.Session)
    (answer : exn + AppConfig.response) (srv : AppConfig.session_script)
    : backend_class :=
  {| class_new := λ kwargs,
       application_name ← kwarg kwargs "application_name";
       configuration_profile_name ← kwarg kwargs "configuration_profile_name";
       environment_name ← kwarg kwargs "environment_name";
       self ← (AppConfig.new AppConfig.repr_plain application_name
                 configuration_profile_name environment_name session).2;
       mret (appconfig_backend self answer srv);
     class_call := λ kwargs,
       app_id ← kwarg kwargs "app_id";
       config_profile_id ← kwarg kwargs "config_profile_id";
       env_id ← kwarg kwargs "env_id";
       mret (appconfig_backend
               {| AppConfig.application_id := app_id;
                  AppConfig.configuration_profile_id := config_profile_id;
                  AppConfig.environment_id := env_id |} answer srv) |}.

(** A backend whose [get()] returns [raw] and whose stream is [stream]. *)
Definition fixed_backend (raw : string) (stream : list string * option exn)
    : Backend :=
  {| backend_get := inr raw; backend_poll := stream |}.

(** Modelled from the spec: the registry of backend classes, not among the
    sources ("select the concrete type via a registry keyed by a
    backend-kind tag supplied externally"). Here the tag [appconfig] names
    the AppConfig backend of a service that knows no name, and the tags
    [slow] and [failing] name two backends with fixed streams. *)
Definition example_get_backend (name : value) : exn + backend_class :=
  match name with
  | VStr "appconfig" =>
      inr (AppConfigBackend_class AppConfig.mock_session_with_0_ids
             (inl (OtherError "ResourceNotFoundException" "session"))
             AppConfig.script_fatal)
  | VStr "slow" =>
      let b := fixed_backend "b0" (["b1"; "b2"; "b3"], None) in
      inr {| class_new := λ _, inr b; class_call := λ _, inr b |}
  | VStr "failing" =>
      let b := fixed_backend "a0"
                 (["a1"], Some (OtherError "RuntimeError" "boom")) in
      inr {| class_new := λ _, inr b; class_call := λ _, inr b |}
  | _ => inl (OtherError "ModuleNotFoundError" "config_ninja.contrib")
  end.

(** Collaborators for the examples: every source format passes the raw
    string through, every serializer writes a string as it is, and a
    template is its own text, rendered without substitution. *)
#[global] Instance example_collaborators : Collaborators :=
  {| Template := string;
     DUMPERS := ["json"; "raw"; "toml"; "yaml"; "yml"];
     loads := λ _ raw, inr (VStr raw);
     dumps := λ _ data,
       match data with
       | VStr s => inr s
       | _ => inl (TypeError "not a str")
       end;
     jinja_compile := λ source, inr source;
     jinja_render := λ t _, inr t;
     get_backend := example_get_backend;
     yaml_dump := λ _, "OBJECTS" |}.

Definition empty_world : world := {| fs := ∅; stdout := [] |}.

Definition entry (backend_name : string) (dest_items : list (string * value))
    : value :=
  VDict [("source", VDict [("backend", VStr backend_name);
                           ("new", VDict [("kwargs", VDict
                              [("application_name", VStr "app-name");
                               ("configuration_profile_name", VStr "conf-name");
                               ("environment_name", VStr "env-name")])])]);
         ("dest", VDict dest_items)].

(** Two objects, written to [/etc/a/a.conf] and [/etc/b/b.conf]. *)
Definition two_objects : Settings :=
  {| OBJECTS :=
       [("a", entry "failing" [("path", VStr "/etc/a/a.conf");
                               ("format", VStr "raw")]);
        ("b", entry "slow" [("path", VStr "/etc/b/b.conf");
                            ("format", VStr "raw")])] |}.

(** The controllers of [two_objects]. *)
Definition ctrl_a : BackendController :=
  {| backend := fixed_backend "a0"
                  (["a1"], Some (OtherError "RuntimeError" "boom"));
     dest := {| path := Path_of_str "/etc/a/a.conf"; format := FormatT "raw" |};
     key := "a";
     settings := two_objects;
     src_format := VStr "raw" |}.

Definition ctrl_b : BackendController :=
  {| backend := fixed_backend "b0" (["b1"; "b2"; "b3"], None);
     dest := {| path := Path_of_str "/etc/b/b.conf"; format := FormatT "raw" |};
     key := "b";
     settings := two_objects;
     src_format := VStr "raw" |}.

(** The world once [/etc/b], or both parent directories, were made. *)
Definition world_b : world :=
  (mkdir (Path_of_str "/etc/b") empty_world).1.

Definition world_ab : world :=
  (mkdir (Path_of_str "/etc/b") (mkdir (Path_of_str "/etc/a") empty_world).1).1.

(** An object whose entry has no [dest], on a service that knows no name. *)
Definition no_dest : Settings :=
  {| OBJECTS :=
       [("example", VDict [("source", VDict
           [("backend", VStr "appconfig");
            ("new", VDict [("kwargs", VDict
               [("application_name", VStr "app-name");
                ("configuration_profile_name", VStr "conf-name");
                ("environment_name", VStr "env-name")])])])])] |}.

(** The same on a working backend. *)
Definition no_dest_slow : Settings :=
  {| OBJECTS :=
       [("example", VDict [("source", VDict
           [("backend", VStr "slow");
            ("init", VDict [("kwargs", VDict [])])])])] |}.

(** An object rendered through the template file [/templates/t.j2]. *)
Definition templated : Settings :=
  {| OBJECTS :=
       [("t", entry "slow" [("path", VStr "/etc/t.conf");
                            ("format", VStr "/templates/t.j2")])] |}.

(** A world whose template file holds [text]. *)
Definition template_world (text : string) : world :=
  {| fs := {[ Path_of_str "/templates/t.j2" := File text ]}; stdout := [] |}.

(** The controller of [templated], built while the file held [text]. *)
Definition templated_ctrl (text : string) : BackendController :=
  {| backend := fixed_backend "b0" (["b1"; "b2"; "b3"], None);
     dest := {| path := Path_of_str "/etc/t.conf";
                format := JinjaTemplate (text : Template) |};
     key := "t";
     settings := templated;
     src_format := VStr "raw" |}.

(** A controller on the AppConfig backend of a service that sends a value,
    no change, a new value. *)
Definition ctrl_appconfig : BackendController :=
  {| backend := appconfig_backend AppConfig.backend_1
                  (inr {| AppConfig.NextPollConfigurationToken := "t1";
                          AppConfig.NextPollIntervalInSeconds := 60;
                          AppConfig.Configuration := "hello" |})
                  AppConfig.script_changes;
     dest := {| path := Path_of_str "/etc/b/b.conf"; format := FormatT "raw" |};
     key := "b";
     settings := two_objects;
     src_format := VStr "raw" |}.

End Examples.

(** ** Further definitions for the AppConfig backend *)

Module AppConfigMore.
Import AppConfig.

(** [AppConfigBackend.__str__] *)
Definition __str__ (self : AppConfigBackend) : string :=
  "AppConfigBackend(app_id='" +:+ application_id self
  +:+ "', conf_profile_id='" +:+ configuration_profile_id self
  +:+ "', env_id='" +:+ environment_id self +:+ "')".

(** An answer that ends the session: an error other than the one the loop
    recovers from, or a content that is not empty and does not decode. *)
Definition fatal (r : exn + response) : bool :=
  match r with
  | inl exc => bool_decide (exc ≠ too_early)
  | inr resp =>
      bool_decide (Configuration resp ≠ "")
      && match bytes_decode (Configuration resp) with
         | inl _ => true
         | inr _ => false
         end
  end.

(** The exception a fatal answer makes the session raise. *)
Definition error_of (r : exn + response) : option exn :=
  match r with
  | inl exc => Some exc
  | inr resp =>
      match bytes_decode (Configuration resp) with
      | inl exc => Some exc
      | inr _ => None
      end
  end.

(** The answers before the first fatal one, and the exception of the first
    fatal one. *)
Fixpoint before_fatal (answers : list (exn + response))
    : list (exn + response) :=
  match answers with
  | [] => []
  | r :: answers' => if fatal r then [] else r :: before_fatal answers'
  end.

Fixpoint first_fatal_error (answers : list (exn + response)) : option exn :=
  match answers with
  | [] => None
  | r :: answers' => if fatal r then error_of r else first_fatal_error answers'
  end.

(** The tokens of the requests of a trace, in order. *)
Definition request_tokens (tr : list event) : list string := (rounds tr).*1.

(** A session whose third and fourth requests come too early. *)
Definition script_retries : session_script :=
  {| start_configuration_session := inr "t0";
     get_latest_configuration :=
       [inr {| NextPollConfigurationToken := "t1";
               NextPollIntervalInSeconds := 60;
               Configuration := "v1" |};
        inl too_early;
        inl too_early;
        inr {| NextPollConfigurationToken := "t2";
               NextPollIntervalInSeconds := 60;
               Configuration := "v2" |}] |}.

(** A service with two applications of the same name; the profile is found
    within the first of them only, and no environment is found there. *)
Definition session_without_environment : Session :=
  {| appconfig := λ operation_name kwargs _,
       match operation_name with
       | list_applications => inr ["app-1"; "app-2"]
       | list_configuration_profiles =>
           if bool_decide (kwargs = [("ApplicationId", "app-1")])
           then inr ["conf-1"] else inr []
       | list_environments => inr []
       end |}.

End AppConfigMore.

(** ** Further definitions for the command line *)

Module CliMore.
Import Os Cli.

(** [typer.Context], as far as the callbacks read it. *)
Record Context := {
  resilient_parsing : bool;
  invoked_subcommand : option string;
  get_help : string;
}.

(** How [config_ninja.resolve_settings_path()] ends: with a path, with a
    [FileNotFoundError] whose second argument, when it has one, lists the
    places that were tried, or with another exception. *)
Inductive resolution :=
| Resolved (p : Path)
| NotFoundAt (locations : option (list string))
| ResolveRaises (exc : exn).

(** The parts of the package [config_ninja] that [cli.py] uses and that are
    not among the sources, taken as parameters. *)
Class Package := {
  __version__ : string;
  resolve_settings_path : resolution;
  load_settings : Path → exn + Settings;
}.

Section WithPackage.
Context `{Collaborators} `{Package}.

(** [version_callback]; [value] is the optional flag. *)
Definition version_callback (ctx : Context) (value : option bool) : M unit :=
  if resilient_parsing ctx then mret tt
  else if default false value
       then _ ← print __version__; raise (Exit 0)
       else mret tt.

(** The command [version] *)
Definition version (ctx : Context) : M unit :=
  version_callback ctx (Some true).

(** The command [self print] *)
Definition print_self_config (settings : option Settings) : M unit :=
  match settings with
  | Some s => print (yaml_dump (VDict (OBJECTS s)))
  | None => print "[yellow]WARNING[/]: No settings file found."
  end.

Definition not_found_warning (locations : option (list string)) : string :=
  "[yellow]WARNING[/]: Could not find [bold blue]config-ninja[/]'s settings file"
  +:+ match locations with
      | Some ps =>
          " at any of the following locations:" +:+ nl
          +:+ String.concat nl ((λ p, "    " +:+ p) <$> ps)
      | None => EmptyString
      end.

(** The callback [main]: what it stores in [ctx.obj['settings']]. *)
Definition main (ctx : Context) (settings_file : option Path)
    : M (option Settings) :=
  settings ←
    match settings_file with
    | Some p => s ← lift (load_settings p); mret (Some s)
    | None =>
        match resolve_settings_path with
        | Resolved p => s ← lift (load_settings p); mret (Some s)
        | NotFoundAt locations =>
            _ ← print (not_found_warning locations); mret None
        | ResolveRaises exc => raise exc
        end
    end;
  _ ← match invoked_subcommand ctx with
      | None => print (get_help ctx)
      | Some _ => mret tt
      end;
  mret settings.

(** What one item of a stream is rendered to. *)
Definition render_item (self : BackendController) (content : string)
    : exn + string :=
  data ← loads (src_format self) content;
  match format (dest self) with
  | JinjaTemplate t => jinja_render t data
  | FormatT fmt => dumps fmt data
  end.

(** The renderings of the items up to the first that fails, and the
    exception of that one. *)
Fixpoint renders (self : BackendController) (items : list string)
    : list string * option exn :=
  match items with
  | [] => ([], None)
  | content :: items' =>
      match render_item self content with
      | inl exc => ([], Some exc)
      | inr text =>
          let '(texts, exc) := renders self items' in (text :: texts, exc)
      end
  end.


(** *** The tasks of [monitor] while they run *)

(** The task [t] has taken [used] from its controller's stream and rendered
    every item of it; what it has left is the rest of the stream, and
    nothing once it has returned. *)
Definition consumed (t : task) (used : list string) : Prop :=
  let stream := backend_poll (backend (task_ctrl t)) in
  stream.1 = used ++ task_items t
  ∧ task_end t = stream.2
  ∧ (renders (task_ctrl t) used).2 = None
  ∧ (task_state t = Finished → task_items t = [] ∧ task_end t = None).

(** What is at [p] once the [texts] were written there, one after the
    other, over [files]. *)
Definition after_writes (files : gmap Path node) (p : Path)
    (texts : list string) : option node :=
  match last texts with
  | Some text => Some (File text)
  | None => files !! p
  end.

End WithPackage.

(** Which spellings name the same file is for the operating system to say:
    the working directory, [..] and links decide it. The file system of the
    model is keyed by the spelling, so it would tell apart two spellings of
    one file; a statement that involves two paths therefore assumes of them
    that they are not the same file. *)
Class Platform := {
  same_file : Path → Path → Prop;
  same_file_refl : ∀ p, same_file p p;
}.

Section WithPlatform.
Context `{Collaborators} `{Platform}.

(** No other controller of the list writes to the file of the [i]th. *)
Definition alone (controllers : list BackendController) (i : nat) : Prop :=
  ∀ j ci cj,
    j ≠ i → controllers !! i = Some ci → controllers !! j = Some cj →
    ¬ same_file (path (dest cj)) (path (dest ci)).

(** The tasks are those of the [controllers], in order; each has rendered
    what it took from its stream, and a destination that no other
    controller writes to holds the last of these renderings, or what it
    held in [w0] when there is none. *)
Definition in_progress (controllers : list BackendController)
    (w0 w : world) (tasks : list task) : Prop :=
  task_ctrl <$> tasks = controllers
  ∧ ∀ i t, tasks !! i = Some t →
      ∃ used,
        consumed t used
        ∧ (alone controllers i →
           fs w !! path (dest (task_ctrl t))
           = after_writes (fs w0) (path (dest (task_ctrl t)))
               (renders (task_ctrl t) used).1).

End WithPlatform.

(** The worlds that differ from [w] at most in the file at [p]. *)
Definition only_at (p : Path) (w w' : world) : Prop :=
  stdout w' = stdout w ∧ ∀ q, q ≠ p → fs w' !! q = fs w !! q.

(** The worlds that differ from [w] at most in what was printed since. *)
Definition only_prints (w w' : world) : Prop :=
  fs w' = fs w ∧ ∃ out, stdout w' = stdout w ++ out.

End CliMore.

(** ** Further example data *)

Module MoreExamples.
Import Os Cli CliMore Examples.

(** A platform on which every file has one spelling. *)
Definition one_spelling : Platform :=
  {| same_file := eq; same_file_refl := λ p, eq_refl |}.

(** An installation without a settings file. *)
Definition package_without_settings : Package :=
  {| __version__ := "1.0.0";
     resolve_settings_path :=
       NotFoundAt (Some ["/work/config-ninja-settings.yaml";
                         "/etc/config-ninja/settings.yaml"]);
     load_settings := λ _, inl FileNotFoundError |}.

(** The context of [config-ninja apply ...]. *)
Definition ctx_apply : Context :=
  {| resilient_parsing := false;
     invoked_subcommand := Some "apply";
     get_help := "Usage: config-ninja [OPTIONS] COMMAND [ARGS]..." |}.

(** An object whose [new] is an empty mapping, and that has no [init]. *)
Definition empty_new : Settings :=
  {| OBJECTS :=
       [("example", VDict [("source", VDict [("backend", VStr "slow");
                                             ("new", VDict [])])])] |}.

(** One object, written to [/etc/b/b.conf]. *)
Definition one_object : Settings :=
  {| OBJECTS :=
       [("b", entry "slow" [("path", VStr "/etc/b/b.conf");
                            ("format", VStr "raw")])] |}.

(** Two objects on working backends, written to [/etc/b/b.conf] and
    [/etc/c/c.conf]. *)
Definition two_slow : Settings :=
  {| OBJECTS :=
       [("b", entry "slow" [("path", VStr "/etc/b/b.conf");
                            ("format", VStr "raw")]);
        ("c", entry "slow" [("path", VStr "/etc/c/c.conf");
                            ("format", VStr "raw")])] |}.

(** The controller of the second object of [two_slow]. *)
Definition ctrl_c : BackendController :=
  {| backend := fixed_backend "b0" (["b1"; "b2"; "b3"], None);
     dest := {| path := Path_of_str "/etc/c/c.conf"; format := FormatT "raw" |};
     key := "c";
     settings := two_slow;
     src_format := VStr "raw" |}.

(** A good object followed by one whose entry is empty. *)
Definition second_broken : Settings :=
  {| OBJECTS :=
       [("b", entry "slow" [("path", VStr "/etc/b/b.conf");
                            ("format", VStr "raw")]);
        ("broken", VDict [])] |}.

End MoreExamples.

(** * Properties of the poll session *)

Module PollFacts.
Import AppConfig.

(** The events of one turn never contain a request. *)
Lemma before_request_iteration interval token r token' tr :
  before_request
    ((poll_iteration interval token r).1 ++ GetLatestConfiguration token' :: tr)
  = (poll_iteration interval token r).1.
Proof.
  unfold poll_iteration.
  repeat (case_match; simpl; try reflexivity).
Qed.

Lemma before_request_iteration_end interval token r :
  before_request (poll_iteration interval token r).1
  = (poll_iteration interval token r).1.
Proof.
  unfold poll_iteration.
  repeat (case_match; simpl; try reflexivity).
Qed.

Lemma rounds_iteration interval token r tr :
  rounds ((poll_iteration interval token r).1 ++ tr) = rounds tr.
Proof.
  unfold poll_iteration.
  repeat (case_match; simpl; try reflexivity).
Qed.

Lemma poll_loop_head interval token answers :
  ∃ tr, poll_loop interval token answers = GetLatestConfiguration token :: tr.
Proof. destruct answers; simpl; eauto. Qed.

(** One turn of the loop, seen through [rounds]. *)
Lemma rounds_poll_loop_cons interval token r answers :
  rounds (poll_loop interval token (r :: answers)) =
  (token, (poll_iteration interval token r).1) ::
  match (poll_iteration interval token r).2 with
  | Some token' => rounds (poll_loop interval token' answers)
  | None => []
  end.
Proof.
  cbn [poll_loop rounds].
  destruct (poll_iteration interval token r) as [evs [token'|]] eqn:E.
  - cbn [fst snd]. f_equal.
    + f_equal. destruct (poll_loop_head interval token' answers) as [tr ->].
      pose proof (before_request_iteration interval token r token' tr) as H.
      by rewrite E in H.
    + pose proof (rounds_iteration interval token r) as H.
      rewrite E in H. apply H.
  - cbn [fst snd]. rewrite app_nil_r. f_equal.
    + f_equal. pose proof (before_request_iteration_end interval token r) as H.
      by rewrite E in H.
    + pose proof (rounds_iteration interval token r []) as H.
      rewrite E, app_nil_r in H. apply H.
Qed.

Lemma rounds_poll_loop_nil interval token :
  rounds (poll_loop interval token []) = [(token, [])].
Proof. reflexivity. Qed.

Lemma raised_poll_loop_cons interval token r answers :
  raised (poll_loop interval token (r :: answers)) =
  match (poll_iteration interval token r).2 with
  | Some token' => raised (poll_loop interval token' answers)
  | None => raised (poll_iteration interval token r).1
  end.
Proof.
  unfold raised. cbn [poll_loop].
  destruct (poll_iteration interval token r) as [evs [token'|]] eqn:E;
    cbn [fst snd].
  - destruct (poll_loop_head interval token' answers) as [tr Htr].
    rewrite Htr, last_cons, last_app, last_cons.
    destruct (last tr); reflexivity.
  - rewrite app_nil_r, last_cons.
    revert E. unfold poll_iteration.
    repeat (case_match; simpl; try reflexivity); intros; simplify_eq; done.
Qed.

(** Reaching round [i]: from there on the session behaves like a fresh loop
    started with that round's token on the answers not yet consumed. *)
Lemma rounds_reach interval token answers i tok evs :
  rounds (poll_loop interval token answers) !! i = Some (tok, evs) →
  drop i (rounds (poll_loop interval token answers))
  = rounds (poll_loop interval tok (drop i answers))
  ∧ raised (poll_loop interval token answers)
    = raised (poll_loop interval tok (drop i answers)).
Proof.
  revert token answers. induction i as [|i IH]; intros token answers H.
  - rewrite !drop_0. destruct answers as [|r answers].
    + rewrite rounds_poll_loop_nil in H. by simplify_eq/=.
    + rewrite rounds_poll_loop_cons in H. by simplify_eq/=.
  - destruct answers as [|r answers]; [done|].
    rewrite rounds_poll_loop_cons, raised_poll_loop_cons in *.
    cbn [drop]. cbn [lookup list_lookup] in H.
    destruct (poll_iteration interval token r).2 as [token'|]; [|done].
    by apply IH.
Qed.

Lemma rounds_poll self interval srv :
  rounds (poll self interval srv) =
  match start_configuration_session srv with
  | inl _ => []
  | inr token => rounds (poll_loop interval token (get_latest_configuration srv))
  end.
Proof. unfold poll. by destruct (start_configuration_session srv). Qed.

Lemma raised_poll self interval srv token :
  start_configuration_session srv = inr token →
  raised (poll self interval srv)
  = raised (poll_loop interval token (get_latest_configuration srv)).
Proof.
  intros H. unfold poll, raised. rewrite H.
  destruct (poll_loop_head interval token (get_latest_configuration srv))
    as [tr ->].
  rewrite (last_cons (StartConfigurationSession _ _ _ _)), last_cons.
  by destruct (last tr).
Qed.

(** Round [i] of a session is one turn of the loop on answer [i], and the
    next round, when there is one, carries the token that turn computed. *)
Lemma round_at self interval srv i tok evs r :
  rounds (poll self interval srv) !! i = Some (tok, evs) →
  get_latest_configuration srv !! i = Some r →
  evs = (poll_iteration interval tok r).1
  ∧ fst <$> rounds (poll self interval srv) !! S i
    = (poll_iteration interval tok r).2
  ∧ ((poll_iteration interval tok r).2 = None →
     raised (poll self interval srv) = raised (poll_iteration interval tok r).1
     ∧ length (rounds (poll self interval srv)) = S i).
Proof.
  intros Hi Hr.
  rewrite rounds_poll in *.
  destruct (start_configuration_session srv) as [|token] eqn:Hst; [done|].
  rewrite (raised_poll _ _ _ _ Hst).
  destruct (rounds_reach _ _ _ _ _ _ Hi) as [Hd Hraise].
  rewrite Hraise.
  pose proof (lookup_lt_Some _ _ _ Hi) as Hlen.
  assert (Hl : ∀ k, rounds (poll_loop interval token
                              (get_latest_configuration srv)) !! (i + k)
                    = rounds (poll_loop interval tok
                                (drop i (get_latest_configuration srv))) !! k).
  { intros k. by rewrite <- Hd, lookup_drop. }
  assert (Hlen' : length (rounds (poll_loop interval token
                                    (get_latest_configuration srv)))
                  = i + length (rounds (poll_loop interval tok
                                  (drop i (get_latest_configuration srv))))).
  { rewrite <- Hd, length_drop. lia. }
  rewrite (drop_S _ _ _ Hr) in *.
  rewrite rounds_poll_loop_cons, raised_poll_loop_cons in *.
  split; [|split].
  - specialize (Hl 0). rewrite Nat.add_0_r, Hi in Hl. by simplify_eq/=.
  - specialize (Hl 1). replace (i + 1) with (S i) in Hl by lia.
    rewrite Hl. cbn [lookup list_lookup].
    destruct (poll_iteration interval tok r).2 as [token'|]; [|done].
    destruct (drop (S i) (get_latest_configuration srv)); by simpl.
  - intros Hnone. rewrite Hnone in *. split; [done|].
    rewrite Hlen'. simpl. lia.
Qed.

Lemma decode_inl content exc :
  bytes_decode content = inl exc → exc = UnicodeDecodeError.
Proof. unfold bytes_decode. case_match; congruence. Qed.

Lemma raised_poll_loop_not_too_early interval token answers :
  raised (poll_loop interval token answers) ≠ Some too_early.
Proof.
  revert token. induction answers as [|r answers IH]; intros token; [done|].
  rewrite raised_poll_loop_cons.
  destruct (poll_iteration interval token r) as [evs [token'|]] eqn:E;
    cbn [fst snd]; [apply IH|].
  revert E. unfold poll_iteration, too_early, raised.
  repeat case_match; intros; simplify_eq/=; try done.
  all: intros ?; simplify_eq; try by case_bool_decide.
  by match goal with H : bytes_decode _ = inl _ |- _ => apply decode_inl in H end.
Qed.

Lemma yields_app tr1 tr2 : yields (tr1 ++ tr2) = yields tr1 ++ yields tr2.
Proof.
  induction tr1 as [|e tr1 IH]; [done|].
  destruct e; simpl; by rewrite ?IH.
Qed.

Lemma decode_inr content text : bytes_decode content = inr text → text = content.
Proof. unfold bytes_decode. case_match; congruence. Qed.

Lemma decode_empty : bytes_decode "" = inr "".
Proof. reflexivity. Qed.

(** What a session yields is an initial segment of the non-empty contents
    the service sent: the whole of it unless the session raised. *)
Lemma yields_poll_loop_prefix interval token answers :
  yields (poll_loop interval token answers) `prefix_of`
  nonempty_contents answers.
Proof.
  revert token. induction answers as [|r answers IH]; intros token.
  { by exists []. }
  cbn [poll_loop nonempty_contents yields].
  destruct r as [exc|resp]; cbn [poll_iteration].
  - destruct exc; try (simpl; apply prefix_nil).
    case_bool_decide; simpl; [apply prefix_nil|apply IH].
  - case_bool_decide as Hne; simpl.
    + destruct (bytes_decode (Configuration resp)) as [exc|text] eqn:Hd; simpl.
      * apply prefix_nil.
      * apply decode_inr in Hd as ->. apply prefix_cons, IH.
    + apply IH.
Qed.

Lemma no_consecutive_duplicates_prefix l1 l2 :
  l1 `prefix_of` l2 →
  no_consecutive_duplicates l2 → no_consecutive_duplicates l1.
Proof.
  intros Hp H i s Hi HSi.
  apply (H i s); eapply prefix_lookup_Some; eauto.
Qed.

Example poll_script_adjusted :
  poll backend_1 60 script_adjusted =
  [StartConfigurationSession "app-id" "env-id" "conf-id" 60;
   GetLatestConfiguration "t0"; Yield "key_0: value_0"; Sleep (120 # 1);
   GetLatestConfiguration "t1"; Sleep (60 # 2);
   GetLatestConfiguration "t1"; Sleep (120 # 1);
   GetLatestConfiguration "t2"].
Proof. reflexivity. Qed.

(** C1 (as amended). In every poll session, when a request is refused with
    the "Request too early" error, the events up to the next request are one
    sleep of exactly half the [interval] argument of [poll], whatever next
    interval earlier responses announced, and the next request carries the
    token of the refused one. *)
Theorem poll_too_early_backoff self interval srv i tok evs :
  rounds (poll self interval srv) !! i = Some (tok, evs) →
  get_latest_configuration srv !! i = Some (inl too_early) →
  evs = [Sleep (inject_Z interval / 2)]
  ∧ fst <$> rounds (poll self interval srv) !! S i = Some tok.
Proof.
  intros Hi Hr. destruct (round_at _ _ _ _ _ _ _ Hi Hr) as (He & Hn & _).
  by rewrite He, Hn.
Qed.

Lemma poll_too_early_backoff_witness :
  rounds (poll backend_1 60 script_adjusted) !! 1
  = Some ("t1", [Sleep (inject_Z 60 / 2)])
  ∧ fst <$> rounds (poll backend_1 60 script_adjusted) !! 2 = Some "t1".
Proof.
  split; [reflexivity|].
  apply (poll_too_early_backoff backend_1 60 script_adjusted 1 "t1"
           [Sleep (inject_Z 60 / 2)]); reflexivity.
Defined.

(** C1 fails as stated: in this session the interval in effect when the
    second request is refused is the 120 seconds of the first response, and
    the sleep before the retry is 30 seconds, not 60. *)
Lemma poll_backoff_ignores_next_interval :
  get_latest_configuration script_adjusted !! 1 = Some (inl too_early)
  ∧ spec_interval_in_effect 60 (get_latest_configuration script_adjusted) 1
    = 120%Z
  ∧ rounds (poll backend_1 60 script_adjusted) !! 1
    = Some ("t1", [Sleep (60 # 2)])
  ∧ ¬ (60 # 2 == inject_Z 120 / 2)%Q.
Proof. repeat split. intros H. vm_compute in H. discriminate. Qed.

Example poll_script_fatal :
  poll backend_1 60 script_fatal =
  [StartConfigurationSession "app-id" "env-id" "conf-id" 60;
   GetLatestConfiguration "t0"; Yield "v1"; Sleep (60 # 1);
   GetLatestConfiguration "t1"; Sleep (60 # 1);
   GetLatestConfiguration "t2"; Raise (BadRequestException "Invalid token")].
Proof. reflexivity. Qed.

(** C2 (as amended). A successful response with empty content yields
    nothing: the turn only sleeps and the next request follows. A successful
    response with non-empty content yields its decoded content, whether or
    not it equals the string yielded before. So the session yields no two
    consecutive identical strings provided the service sends no non-empty
    content twice in succession. *)
Theorem poll_yields_nonempty_contents self interval srv i tok evs resp :
  rounds (poll self interval srv) !! i = Some (tok, evs) →
  get_latest_configuration srv !! i = Some (inr resp) →
  (Configuration resp = "" →
     evs = [Sleep (inject_Z (NextPollIntervalInSeconds resp))]
     ∧ is_Some (rounds (poll self interval srv) !! S i))
  ∧ (∀ text, Configuration resp ≠ "" →
       bytes_decode (Configuration resp) = inr text →
       evs = [Yield text; Sleep (inject_Z (NextPollIntervalInSeconds resp))])
  ∧ (no_consecutive_duplicates
       (nonempty_contents (get_latest_configuration srv)) →
     no_consecutive_duplicates (yields (poll self interval srv))).
Proof.
  intros Hi Hr. destruct (round_at _ _ _ _ _ _ _ Hi Hr) as (He & Hn & _).
  split; [|split].
  - intros Hc. revert He Hn. cbn [poll_iteration]. rewrite Hc.
    rewrite bool_decide_false by (by intros []). cbn [fst snd].
    intros -> Hn. split; [done|].
    apply fmap_is_Some with (f := fst). by rewrite Hn.
  - intros text Hc Hd. revert He. cbn [poll_iteration].
    rewrite bool_decide_true by done. by rewrite Hd.
  - apply no_consecutive_duplicates_prefix.
    unfold poll. destruct (start_configuration_session srv); simpl.
    + apply prefix_nil.
    + apply yields_poll_loop_prefix.
Qed.

Lemma poll_yields_nonempty_contents_witness :
  is_Some (rounds (poll backend_1 60 script_fatal) !! 2)
  ∧ no_consecutive_duplicates (yields (poll backend_1 60 script_fatal)).
Proof.
  destruct (poll_yields_nonempty_contents backend_1 60 script_fatal 1 "t1"
              [Sleep (60 # 1)]
              {| NextPollConfigurationToken := "t2";
                 NextPollIntervalInSeconds := 60;
                 Configuration := "" |} eq_refl eq_refl) as (He & _ & Hn).
  split; [exact (proj2 (He eq_refl))|].
  apply Hn. intros [|[|i]] s Hi HSi; vm_compute in Hi, HSi; congruence.
Defined.

(** C2 fails as stated: when the service sends the same non-empty content
    twice, the session yields it twice in a row. *)
Lemma poll_repeats_identical_content :
  yields (poll backend_1 60 script_repeated) = ["v1"; "v1"]
  ∧ ¬ no_consecutive_duplicates (yields (poll backend_1 60 script_repeated)).
Proof.
  split; [reflexivity|].
  intros H. by apply (H 0 "v1").
Qed.

(** C3. After every successful response the next request, if the session
    gets to send one, carries the [NextPollConfigurationToken] of that
    response; it does send one when the content is empty or decodes; and the
    session is opened once, never again. *)
Theorem poll_next_token self interval srv i tok evs resp :
  rounds (poll self interval srv) !! i = Some (tok, evs) →
  get_latest_configuration srv !! i = Some (inr resp) →
  (∀ tok', fst <$> rounds (poll self interval srv) !! S i = Some tok' →
     tok' = NextPollConfigurationToken resp)
  ∧ (∀ text, bytes_decode (Configuration resp) = inr text →
       fst <$> rounds (poll self interval srv) !! S i
       = Some (NextPollConfigurationToken resp))
  ∧ session_starts (poll self interval srv) = 1.
Proof.
  intros Hi Hr. destruct (round_at _ _ _ _ _ _ _ Hi Hr) as (_ & Hn & _).
  rewrite Hn. cbn [poll_iteration]. split; [|split].
  - intros tok'. repeat case_match; simpl; congruence.
  - intros text Hd. rewrite Hd. by case_bool_decide.
  - clear. unfold poll. simpl. f_equal.
    destruct (start_configuration_session srv) as [|token]; [done|].
    generalize (get_latest_configuration srv). intros answers.
    revert token. induction answers as [|r answers IH]; intros token; [done|].
    cbn [poll_loop session_starts].
    destruct r as [exc|resp]; cbn [poll_iteration].
    + destruct exc; try done. case_bool_decide; [done|]. apply IH.
    + case_bool_decide; [|apply IH].
      destruct (bytes_decode (Configuration resp)); [done|]. apply IH.
Qed.

Lemma poll_next_token_witness :
  fst <$> rounds (poll backend_1 60 script_fatal) !! 2 = Some "t2".
Proof.
  destruct (poll_next_token backend_1 60 script_fatal 1 "t1" [Sleep (60 # 1)]
              {| NextPollConfigurationToken := "t2";
                 NextPollIntervalInSeconds := 60;
                 Configuration := "" |} eq_refl eq_refl) as (_ & H & _).
  exact (H "" eq_refl).
Defined.

(** C4. A fetch error is recovered inside the session exactly when it is a
    [BadRequestException] whose message is "Request too early": the turn
    sleeps and another request follows, and no session ends by raising that
    error. Every other fetch error is raised to the caller as it is, and
    ends the session: no request follows it. *)
Theorem poll_error_handling self interval srv i tok evs exc :
  rounds (poll self interval srv) !! i = Some (tok, evs) →
  get_latest_configuration srv !! i = Some (inl exc) →
  raised (poll self interval srv) ≠ Some too_early
  ∧ (exc = too_early →
       evs = [Sleep (inject_Z interval / 2)]
       ∧ is_Some (rounds (poll self interval srv) !! S i))
  ∧ (exc ≠ too_early →
       evs = [Raise exc]
       ∧ raised (poll self interval srv) = Some exc
       ∧ length (rounds (poll self interval srv)) = S i).
Proof.
  intros Hi Hr. destruct (round_at _ _ _ _ _ _ _ Hi Hr) as (He & Hn & Hend).
  split; [|split].
  - rewrite rounds_poll in Hi.
    destruct (start_configuration_session srv) as [|token] eqn:Hs; [done|].
    rewrite (raised_poll _ _ _ _ Hs).
    apply raised_poll_loop_not_too_early.
  - intros ->. split; [done|].
    apply fmap_is_Some with (f := fst). by rewrite Hn.
  - intros Hne.
    assert (poll_iteration interval tok (inl exc) = ([Raise exc], None)) as E.
    { unfold too_early in Hne. destruct exc; try done.
      cbn [poll_iteration]. case_bool_decide; [done|congruence]. }
    rewrite E in *. destruct (Hend eq_refl) as [-> ->]. done.
Qed.

Lemma poll_error_handling_witness :
  raised (poll backend_1 60 script_fatal)
  = Some (BadRequestException "Invalid token")
  ∧ length (rounds (poll backend_1 60 script_fatal)) = 3.
Proof.
  destruct (poll_error_handling backend_1 60 script_fatal 2 "t2"
              [Raise (BadRequestException "Invalid token")]
              (BadRequestException "Invalid token") eq_refl eq_refl)
    as (_ & _ & H).
  destruct H as (_ & H1 & H2); [discriminate|]. by split.
Defined.

End PollFacts.

(** * Properties of name resolution *)

Module ResolveFacts.
Import AppConfig.

Lemma append_assoc (s1 s2 s3 : string) :
  (s1 +:+ s2) +:+ s3 = s1 +:+ (s2 +:+ s3).
Proof.
  induction s1 as [|a s1 IH]; [done|].
  change (String a ((s1 +:+ s2) +:+ s3) = String a (s1 +:+ (s2 +:+ s3))).
  by rewrite IH.
Qed.

Lemma append_nil_r (s : string) : s +:+ EmptyString = s.
Proof.
  induction s as [|a s IH]; [done|].
  change (String a (s +:+ EmptyString) = String a s).
  by rewrite IH.
Qed.

Lemma occurs_in_here sub after : occurs_in sub (sub +:+ after).
Proof. by exists EmptyString, after. Qed.

Lemma occurs_in_refl s : occurs_in s s.
Proof.
  exists EmptyString, EmptyString.
  change (s = s +:+ EmptyString). by rewrite append_nil_r.
Qed.

Lemma occurs_in_app_l sub s p : occurs_in sub s → occurs_in sub (p +:+ s).
Proof.
  intros (b & a & ->). exists (p +:+ b), a. by rewrite append_assoc.
Qed.

Lemma occurs_in_app_r sub s q : occurs_in sub s → occurs_in sub (s +:+ q).
Proof.
  intros (b & a & ->). exists b, (a +:+ q). by rewrite !append_assoc.
Qed.

Lemma occurs_in_concat sep x (l : list string) :
  x ∈ l → occurs_in x (String.concat sep l).
Proof.
  induction l as [|y l IH]; [by intros ?%elem_of_nil|].
  intros [->|Hin]%elem_of_cons.
  - destruct l; [apply occurs_in_refl|apply occurs_in_here].
  - destruct l as [|z l]; [by apply elem_of_nil in Hin|].
    change (String.concat sep (y :: z :: l))
      with (y +:+ sep +:+ String.concat sep (z :: l)).
    by apply occurs_in_app_l, occurs_in_app_l, IH.
Qed.

Lemma occurs_in_repr_list repr x (l : list string) :
  x ∈ l → occurs_in (repr x) (repr_list repr l).
Proof.
  intros Hin. unfold repr_list.
  apply occurs_in_app_l, occurs_in_app_r, occurs_in_concat.
  by apply list_elem_of_fmap_2.
Qed.

(** The examples of the documentation of [new]. *)
Example new_with_1_id :
  new repr_plain "app-name" "conf-name" "env-name" mock_session_with_1_id
  = ([], inr {| application_id := "id-1";
                configuration_profile_id := "id-1";
                environment_id := "id-1" |}).
Proof. reflexivity. Qed.

Example new_with_0_ids :
  new repr_plain "app-name" "conf-name" "env-name" mock_session_with_0_ids
  = ([], inl (ValueError
                ("no " +:+ dq +:+ "list_applications" +:+ dq
                 +:+ " results found for Name=" +:+ dq +:+ "app-name"
                 +:+ dq))).
Proof. reflexivity. Qed.

Example new_with_2_ids :
  new repr_plain "app-name" "conf-name" "env-name" mock_session_with_2_ids
  = ([{| message := "'list_applications' found 2 results for Name='app-name'; 'id-1' will be used and the others ignored: ['id-2']";
         category := "RuntimeWarning" |};
      {| message := "'list_configuration_profiles' found 2 results for Name='conf-name'; 'id-1' will be used and the others ignored: ['id-2']";
         category := "RuntimeWarning" |};
      {| message := "'list_environments' found 2 results for Name='env-name'; 'id-1' will be used and the others ignored: ['id-2']";
         category := "RuntimeWarning" |}],
     inr {| application_id := "id-1";
            configuration_profile_id := "id-1";
            environment_id := "id-1" |}).
Proof. reflexivity. Qed.

(** C5. A name resolution whose search finds nothing raises a [ValueError]
    whose message names the operation and the searched name. One that finds
    exactly one id returns it and warns of nothing. One that finds several
    returns the first of them, in the order the service returned them, and
    emits one warning, of category [RuntimeWarning], whose message shows
    every id it discarded. The construction of a backend by [new] consists
    of three such resolutions, for the application, the configuration
    profile and the environment, and stops at the first that raises. *)
Theorem get_id_from_name_resolution repr :
  (∀ name operation_name client kwargs ids,
     client operation_name kwargs (search_expression name) = inr ids →
     match ids with
     | [] =>
         ∃ msg,
           _get_id_from_name repr name operation_name client kwargs
           = ([], inl (ValueError msg))
           ∧ occurs_in (operation_str operation_name) msg
           ∧ occurs_in name msg
     | [id] =>
         _get_id_from_name repr name operation_name client kwargs
         = ([], inr id)
     | id :: others =>
         ∃ msg,
           _get_id_from_name repr name operation_name client kwargs
           = ([{| message := msg; category := "RuntimeWarning" |}], inr id)
           ∧ ∀ other, other ∈ others → occurs_in (repr other) msg
     end)
  ∧ (∀ application_name configuration_profile_name environment_name session,
       new repr application_name configuration_profile_name environment_name
         session
       = (app_id ← _get_id_from_name repr application_name list_applications
                     (appconfig session) [];
          conf_id ← _get_id_from_name repr configuration_profile_name
                      list_configuration_profiles (appconfig session)
                      [("ApplicationId", app_id)];
          env_id ← _get_id_from_name repr environment_name list_environments
                     (appconfig session) [("ApplicationId", app_id)];
          mret {| application_id := app_id;
                  configuration_profile_id := conf_id;
                  environment_id := env_id |})).
Proof.
  split; [|reflexivity].
  intros name operation_name client kwargs ids Hs.
  unfold _get_id_from_name. rewrite Hs.
  destruct ids as [|id [|id' others]]; [| reflexivity |].
  - eexists. split; [reflexivity|]. unfold not_found_message. split.
    + do 2 apply occurs_in_app_l. apply occurs_in_here.
    + do 6 apply occurs_in_app_l. apply occurs_in_here.
  - eexists. split; [reflexivity|]. intros other Hin.
    unfold multiple_found_message.
    do 9 apply occurs_in_app_l. by apply occurs_in_repr_list.
Qed.

Lemma get_id_from_name_resolution_witness :
  ∃ msg,
    _get_id_from_name repr_plain "app-name" list_applications
      (appconfig mock_session_with_2_ids) []
    = ([{| message := msg; category := "RuntimeWarning" |}], inr "id-1")
    ∧ ∀ other, other ∈ ["id-2"] → occurs_in (repr_plain other) msg.
Proof.
  exact (proj1 (get_id_from_name_resolution repr_plain) "app-name"
           list_applications (appconfig mock_session_with_2_ids) []
           ["id-1"; "id-2"] eq_refl).
Defined.

End ResolveFacts.

(** * Properties of the file system operations *)

Module OsFacts.
Import Os.

Lemma node_at_insert_eq p n files :
  parts p ≠ [] → node_at (<[p := n]> files) p = Some n.
Proof.
  intros Hp. unfold node_at. destruct (parts p); [done|].
  apply lookup_insert_eq.
Qed.

Lemma node_at_insert_ne p q n files :
  p ≠ q → node_at (<[p := n]> files) q = node_at files q.
Proof.
  intros Hne. unfold node_at. destruct (parts q); [done|].
  by apply lookup_insert_ne.
Qed.

Lemma node_at_None_parts files p : node_at files p = None → parts p ≠ [].
Proof. unfold node_at. by destruct (parts p). Qed.

Lemma os_mkdir_inr p files files' :
  os_mkdir p files = inr files' →
  node_at files p = None
  ∧ is_dir files (parent p) = true
  ∧ files' = <[p := Dir]> files.
Proof.
  unfold os_mkdir, is_dir.
  destruct (node_at files p); [done|].
  destruct (node_at files (parent p)) as [[]|]; intros; by simplify_eq.
Qed.

Lemma os_mkdir_is_dir p files files' :
  os_mkdir p files = inr files' → is_dir files' p = true.
Proof.
  intros (Hn & _ & ->)%os_mkdir_inr. unfold is_dir.
  by rewrite node_at_insert_eq by by eapply node_at_None_parts.
Qed.

Lemma os_mkdir_keeps p files files' :
  os_mkdir p files = inr files' → keeps_dirs files files'.
Proof.
  intros (Hn & _ & ->)%os_mkdir_inr q Hq. unfold is_dir in *.
  destruct (decide (p = q)) as [->|Hne].
  - by rewrite Hn in Hq.
  - by rewrite node_at_insert_ne.
Qed.

Lemma keeps_dirs_refl files : keeps_dirs files files.
Proof. by intros q. Qed.

Lemma keeps_dirs_trans files1 files2 files3 :
  keeps_dirs files1 files2 → keeps_dirs files2 files3 →
  keeps_dirs files1 files3.
Proof. intros H12 H23 q Hq. by apply H23, H12. Qed.

Lemma mkdir_from_is_dir n p files files' :
  mkdir_from n p files = inr files' → is_dir files' p = true.
Proof.
  destruct n as [|n]; cbn [mkdir_from].
  - destruct (os_mkdir p files) as [exc|files1] eqn:Hm.
    + destruct exc; try done; case_match; intros; by simplify_eq.
    + intros; simplify_eq. by eapply os_mkdir_is_dir.
  - destruct (os_mkdir p files) as [exc|files1] eqn:Hm.
    + destruct exc; try (case_match; intros; by simplify_eq).
      destruct (mkdir_from n (parent p) files) as [|files1]; [done|].
      destruct (os_mkdir p files1) as [exc'|files2] eqn:Hm'.
      * case_match; intros; by simplify_eq.
      * intros; simplify_eq. by eapply os_mkdir_is_dir.
    + intros; simplify_eq. by eapply os_mkdir_is_dir.
Qed.

Lemma mkdir_from_keeps n p files files' :
  mkdir_from n p files = inr files' → keeps_dirs files files'.
Proof.
  revert p files files'. induction n as [|n IH]; intros p files files';
    cbn [mkdir_from].
  - destruct (os_mkdir p files) as [exc|files1] eqn:Hm.
    + destruct exc; try done; case_match; intros; simplify_eq;
        apply keeps_dirs_refl.
    + intros; simplify_eq. by eapply os_mkdir_keeps.
  - destruct (os_mkdir p files) as [exc|files1] eqn:Hm.
    + destruct exc;
        try (case_match; intros; simplify_eq; apply keeps_dirs_refl).
      destruct (mkdir_from n (parent p) files) as [|files1] eqn:Hr; [done|].
      apply IH in Hr.
      destruct (os_mkdir p files1) as [exc'|files2] eqn:Hm'.
      * case_match; intros; by simplify_eq.
      * intros; simplify_eq.
        eapply keeps_dirs_trans; [done|by eapply os_mkdir_keeps].
    + intros; simplify_eq. by eapply os_mkdir_keeps.
Qed.

(** [exist_ok]: on a directory that exists, nothing happens. *)
Lemma mkdir_exists p files :
  is_dir files p = true → mkdir_parents_exist_ok p files = inr files.
Proof.
  intros Hd. unfold mkdir_parents_exist_ok.
  assert (os_mkdir p files = inl FileExistsError) as Hm.
  { unfold os_mkdir, is_dir in *. by destruct (node_at files p) as [[]|]. }
  destruct (length (parts p)); cbn [mkdir_from]; by rewrite Hm, Hd.
Qed.

Lemma fs_write_text_keeps p content files files' :
  fs_write_text p content files = inr files' → keeps_dirs files files'.
Proof.
  unfold fs_write_text. intros Hw q Hq. unfold is_dir in *.
  destruct (decide (p = q)) as [->|Hne].
  - by destruct (node_at files q) as [[]|].
  - assert (files' = <[p := File content]> files) as ->.
    { destruct (node_at files p) as [[]|];
        destruct (node_at files (parent p)) as [[]|]; by simplify_eq. }
    by rewrite node_at_insert_ne.
Qed.

Lemma fs_write_text_parent p content files :
  is_dir files (parent p) = true →
  fs_write_text p content files ≠ inl FileNotFoundError.
Proof.
  unfold fs_write_text, is_dir.
  destruct (node_at files p) as [[]|];
    destruct (node_at files (parent p)) as [[]|]; done.
Qed.

Lemma parent_length p : length (parts (parent p)) = pred (length (parts p)).
Proof.
  unfold parent. cbn [parts]. rewrite removelast_firstn_len.
  rewrite length_take. lia.
Qed.

Lemma ancestor_all p : ancestor (length (parts p)) p = p.
Proof. destruct p as [a l]. unfold ancestor. cbn. by rewrite firstn_all. Qed.

Lemma ancestor_parent p : ancestor (pred (length (parts p))) p = parent p.
Proof. unfold ancestor, parent. by rewrite removelast_firstn_len. Qed.

Lemma ancestor_of_parent k p :
  k ≤ pred (length (parts p)) → ancestor k (parent p) = ancestor k p.
Proof.
  intros Hk. unfold ancestor, parent. cbn [absolute parts]. f_equal.
  rewrite removelast_firstn_len, take_take. f_equal. lia.
Qed.

(** [mkdir] changes nothing below the directory it makes. *)
Lemma mkdir_from_untouched n q files files' r :
  mkdir_from n q files = inr files' →
  length (parts q) = n → n < length (parts r) →
  node_at files' r = node_at files r.
Proof.
  revert q files files'. induction n as [|n IH]; intros q files files' Hm Hq Hr.
  - cbn [mkdir_from] in Hm.
    destruct (os_mkdir q files) as [exc|files1] eqn:Ho.
    + destruct exc; try done; case_match; by simplify_eq.
    + simplify_eq. apply os_mkdir_inr in Ho as (_ & _ & ->).
      apply node_at_insert_ne. intros ->. lia.
  - cbn [mkdir_from] in Hm.
    destruct (os_mkdir q files) as [exc|files1] eqn:Ho.
    + destruct exc; try (case_match; by simplify_eq).
      destruct (mkdir_from n (parent q) files) as [|files1] eqn:Hrec; [done|].
      apply IH in Hrec; [|rewrite parent_length; lia|lia].
      destruct (os_mkdir q files1) as [exc'|files2] eqn:Ho'.
      * case_match; by simplify_eq.
      * simplify_eq. apply os_mkdir_inr in Ho' as (_ & _ & ->).
        rewrite node_at_insert_ne; [done|]. intros ->. lia.
    + simplify_eq. apply os_mkdir_inr in Ho as (_ & _ & ->).
      apply node_at_insert_ne. intros ->. lia.
Qed.

(** [parents=True]: when no file stands where a directory is needed, the
    directory and all its missing ancestors are made. *)
Lemma mkdir_creates n p files :
  length (parts p) = n →
  (∀ k, k ≤ n → is_file files (ancestor k p) = false) →
  ∃ files', mkdir_from n p files = inr files'.
Proof.
  revert p files. induction n as [|n IH]; intros p files Hn Hfree.
  - exists files. cbn [mkdir_from].
    assert (node_at files p = Some Dir) as Hd.
    { unfold node_at. by destruct (parts p). }
    unfold os_mkdir, is_dir. by rewrite Hd.
  - pose proof (Hfree (S n) (le_n _)) as Hp.
    rewrite <- Hn, ancestor_all in Hp.
    pose proof (Hfree n (le_S _ _ (le_n _))) as Hpp.
    replace n with (pred (length (parts p))) in Hpp at 1 by lia.
    rewrite ancestor_parent in Hpp.
    unfold is_file in Hp, Hpp. cbn [mkdir_from]. unfold os_mkdir at 1, is_dir.
    destruct (node_at files p) as [[]|] eqn:Hnp; [done|by eexists|].
    destruct (node_at files (parent p)) as [[]|] eqn:Hnpp;
      [done|by eexists|].
    destruct (IH (parent p) files) as [files1 Hrec].
    { rewrite parent_length. lia. }
    { intros k Hk. rewrite ancestor_of_parent by lia. apply Hfree. lia. }
    rewrite Hrec.
    pose proof (mkdir_from_is_dir _ _ _ _ Hrec) as Hdir.
    pose proof (mkdir_from_untouched _ _ _ _ p Hrec) as Hsame.
    rewrite Hnp in Hsame.
    unfold os_mkdir. rewrite Hsame by (rewrite ?parent_length; lia).
    unfold is_dir in Hdir.
    destruct (node_at files1 (parent p)) as [[]|]; try done. by eexists.
Qed.

Lemma parent_ne p : parts p ≠ [] → parent p ≠ p.
Proof.
  intros Hp Heq. pose proof (parent_length p) as Hl. rewrite Heq in Hl.
  destruct (parts p); [done|]. cbn in Hl. lia.
Qed.

(** *** Consistent file systems *)

Lemma consistent_empty : consistent ∅.
Proof.
  intros p n. unfold node_at, is_dir, parent. cbn [parts].
  destruct (parts p) as [|c l]; [done|]. by rewrite lookup_empty.
Qed.

Lemma consistent_ancestors files p :
  consistent files → is_dir files p = true →
  ∀ k, k ≤ length (parts p) → is_dir files (ancestor k p) = true.
Proof.
  intros Hc. remember (length (parts p)) as n eqn:Hn. revert p Hn.
  induction n as [|n IH]; intros p Hn Hd k Hk.
  - assert (k = 0) as -> by lia. unfold is_dir, node_at, ancestor.
    cbn [parts]. by rewrite take_0.
  - destruct (decide (k = S n)) as [->|Hne].
    + by rewrite Hn, ancestor_all.
    + rewrite <- (ancestor_of_parent k p) by lia. apply IH.
      * rewrite parent_length. lia.
      * unfold is_dir in Hd.
        destruct (node_at files p) as [n'|] eqn:Hp; [|done].
        by eapply Hc.
      * lia.
Qed.

Lemma os_mkdir_consistent p files files' :
  os_mkdir p files = inr files' → consistent files → consistent files'.
Proof.
  intros Hm Hc q n Hq. pose proof (os_mkdir_keeps _ _ _ Hm) as Hk.
  apply os_mkdir_inr in Hm as (Hn & Hd & ->).
  destruct (decide (p = q)) as [<-|Hne].
  - by apply Hk.
  - rewrite node_at_insert_ne in Hq by done. by eapply Hk, Hc.
Qed.

Lemma mkdir_from_consistent n p files files' :
  mkdir_from n p files = inr files' → consistent files → consistent files'.
Proof.
  revert p files files'. induction n as [|n IH]; intros p files files';
    cbn [mkdir_from].
  - destruct (os_mkdir p files) as [exc|files1] eqn:Hm.
    + destruct exc; try done; case_match; intros; by simplify_eq.
    + intros; simplify_eq. by eapply os_mkdir_consistent.
  - destruct (os_mkdir p files) as [exc|files1] eqn:Hm.
    + destruct exc; try (case_match; intros; by simplify_eq).
      destruct (mkdir_from n (parent p) files) as [|files1] eqn:Hr; [done|].
      destruct (os_mkdir p files1) as [exc'|files2] eqn:Hm'.
      * case_match; intros; simplify_eq; by eapply IH.
      * intros; simplify_eq. eapply os_mkdir_consistent; [done|].
        by eapply IH.
    + intros; simplify_eq. by eapply os_mkdir_consistent.
Qed.

Lemma fs_write_text_consistent p content files files' :
  fs_write_text p content files = inr files' →
  consistent files → consistent files'.
Proof.
  intros Hw Hc q n Hq. pose proof (fs_write_text_keeps _ _ _ _ Hw) as Hk.
  assert (is_dir files (parent p) = true
          ∧ files' = <[p := File content]> files) as [Hd ->].
  { unfold fs_write_text, is_dir in *.
    destruct (node_at files p) as [[]|];
      destruct (node_at files (parent p)) as [[]|]; by simplify_eq. }
  destruct (decide (p = q)) as [<-|Hne].
  - by apply Hk.
  - rewrite node_at_insert_ne in Hq by done. by eapply Hk, Hc.
Qed.

End OsFacts.

(** * Properties of the controllers *)

Module CliFacts.
Import Os OsFacts Cli Examples.

(** Runs the lookups of a [with] block on the items the context knows. *)
Ltac run_lookups :=
  repeat first
    [ progress cbn [getitem mbind result_bind Path_of_value]
    | match goal with H : assoc _ _ = _ |- _ => rewrite H end ].

Section WithCollaborators.
Context `{Collaborators}.

Lemma handle_key_errors_lift {A} objects (r : exn + A) w :
  handle_key_errors objects (lift r) w =
  match r with
  | inl (KeyError k) => (reported w k objects, inl (Exit 1))
  | _ => (w, r)
  end.
Proof.
  unfold handle_key_errors, lift, reported.
  destruct r as [[]|]; try reflexivity.
  unfold mbind, M_bind, print, raise. simpl. by rewrite <- app_assoc.
Qed.

Lemma init_backend_eq settings key w :
  _init_backend settings key w =
  match source_lookups (VDict (OBJECTS settings)) key with
  | inl (KeyError k) =>
      (reported w k (VDict (OBJECTS settings)), inl (Exit 1))
  | r => (w, r)
  end.
Proof.
  unfold _init_backend. rewrite handle_key_errors_lift.
  by destruct (source_lookups _ _) as [[]|].
Qed.

(** Construction when the source side raises. *)
Lemma init_source_fails settings key w exc :
  source_lookups (VDict (OBJECTS settings)) key = inl exc →
  __init__ (Some settings) key w =
  match exc with
  | KeyError k => (reported w k (VDict (OBJECTS settings)), inl (Exit 1))
  | _ => (w, inl exc)
  end.
Proof.
  intros Hs. unfold __init__, mbind at 1, M_bind.
  rewrite init_backend_eq, Hs. by destruct exc.
Qed.

(** Construction when the source side returns and the destination lookups
    raise. *)
Lemma init_dest_fails settings key w x exc :
  source_lookups (VDict (OBJECTS settings)) key = inr x →
  dest_lookups (VDict (OBJECTS settings)) key = inl exc →
  __init__ (Some settings) key w =
  match exc with
  | KeyError k => (reported w k (VDict (OBJECTS settings)), inl (Exit 1))
  | _ => (w, inl exc)
  end.
Proof.
  intros Hs Hd. unfold __init__, mbind at 1, M_bind.
  rewrite init_backend_eq, Hs. destruct x as [fmt b].
  unfold _get_dest, mbind at 1, M_bind. unfold mbind at 1, M_bind.
  rewrite handle_key_errors_lift, Hd. by destruct exc.
Qed.

(** C7 (as amended). When the entry of a configuration object lacks a
    required field, the construction of the controller prints the name of
    the missing key and the settings and raises [typer.Exit(1)], provided
    the lookup of that field is the first step of the construction that
    fails: for [source] and [backend] that is so whenever the fields looked
    up before them are there; for [dest], [path] and [format] it is so when
    the source side, which is run first, returned a backend. *)
Theorem missing_key_reported settings key entry w :
  assoc key (OBJECTS settings) = Some (VDict entry) →
  let objects := VDict (OBJECTS settings) in
  let report k := (reported w k objects, inl (Exit 1)) in
  (assoc "source" entry = None →
     __init__ (Some settings) key w = report "source")
  ∧ (∀ source,
       assoc "source" entry = Some (VDict source) →
       assoc "backend" source = None →
       __init__ (Some settings) key w = report "backend")
  ∧ (∀ x,
       source_lookups objects key = inr x →
       (assoc "dest" entry = None →
          __init__ (Some settings) key w = report "dest")
       ∧ (∀ dest,
            assoc "dest" entry = Some (VDict dest) →
            (assoc "path" dest = None →
               __init__ (Some settings) key w = report "path")
            ∧ (∀ p,
                 assoc "path" dest = Some (VStr p) →
                 assoc "format" dest = None →
                 __init__ (Some settings) key w = report "format"))).
Proof.
  intros He objects report. split; [|split].
  - intros Hs. refine (init_source_fails _ _ _ (KeyError "source") _).
    unfold source_lookups. by run_lookups.
  - intros source Hs Hb.
    refine (init_source_fails _ _ _ (KeyError "backend") _).
    unfold source_lookups. by run_lookups.
  - intros x Hx. split; [|intros dest Hd; split].
    + intros Hd. refine (init_dest_fails _ _ _ _ (KeyError "dest") Hx _).
      unfold dest_lookups. by run_lookups.
    + intros Hp. refine (init_dest_fails _ _ _ _ (KeyError "path") Hx _).
      unfold dest_lookups. by run_lookups.
    + intros p Hp Hf.
      refine (init_dest_fails _ _ _ _ (KeyError "format") Hx _).
      unfold dest_lookups. by run_lookups.
Qed.

Lemma get_dest_eq settings key w :
  _get_dest settings key w =
  match dest_lookups (VDict (OBJECTS settings)) key with
  | inl (KeyError k) =>
      (reported w k (VDict (OBJECTS settings)), inl (Exit 1))
  | inl exc => (w, inl exc)
  | inr (inl spec) => (w, inr spec)
  | inr (inr (p, template_path)) =>
      (w, match (source ← get_source (parent template_path)
                            (name template_path) (fs w);
                 jinja_compile source) with
          | inl exc => inl exc
          | inr t => inr {| path := p; format := JinjaTemplate t |}
          end)
  end.
Proof.
  unfold _get_dest, mbind at 1, M_bind. rewrite handle_key_errors_lift.
  destruct (dest_lookups _ _) as [[]|[spec|[p template_path]]];
    try reflexivity.
  unfold mbind at 1, M_bind, get_template.
  by destruct (_ ≫= _).
Qed.

Lemma do_serializer self fmt action data w :
  format (dest self) = FormatT fmt →
  _do self action data w = (content ← lift (dumps fmt data); action content) w.
Proof. intros Hf. unfold _do, is_template. by rewrite Hf. Qed.

Lemma do_template self t action data w :
  format (dest self) = JinjaTemplate t →
  _do self action data w
  = (content ← lift (jinja_render t data); action content) w.
Proof. intros Hf. unfold _do, is_template. by rewrite Hf. Qed.

(** *** What construction and the writes do to the world *)

Lemma init_eq s key w :
  __init__ (Some s) key w =
  match source_lookups (VDict (OBJECTS s)) key with
  | inl (KeyError k) => (reported w k (VDict (OBJECTS s)), inl (Exit 1))
  | inl exc => (w, inl exc)
  | inr (fmt, b) =>
      match _get_dest s key w with
      | (w', inl exc) => (w', inl exc)
      | (w', inr d) =>
          (w', inr {| backend := b; dest := d; key := key; settings := s;
                      src_format := fmt |})
      end
  end.
Proof.
  unfold __init__, mbind at 1, M_bind at 1. rewrite init_backend_eq.
  by destruct (source_lookups _ _) as [[]|[fmt b]].
Qed.

Lemma get_dest_world s key w w' r :
  _get_dest s key w = (w', r) →
  w' = w ∨ ∃ k, w' = reported w k (VDict (OBJECTS s)) ∧ r = inl (Exit 1).
Proof.
  rewrite get_dest_eq.
  destruct (dest_lookups _ _) as [[]|[spec|[p tp]]]; intros; simplify_eq;
    eauto.
Qed.

Lemma init_world s key w w' r :
  __init__ (Some s) key w = (w', r) →
  w' = w ∨ ∃ k, w' = reported w k (VDict (OBJECTS s)) ∧ r = inl (Exit 1).
Proof.
  intros Hinit. rewrite init_eq in Hinit.
  destruct (source_lookups _ _) as [[]|[fmt b]]; simplify_eq; eauto.
  destruct (_get_dest s key w) as [w1 [exc|d]] eqn:Hd; simplify_eq.
  - apply get_dest_world in Hd as [->|(k & -> & [= ->])]; eauto.
  - apply get_dest_world in Hd as [->|(k & -> & ?)]; [eauto|done].
Qed.

Lemma init_fs settings key w w' r :
  __init__ settings key w = (w', r) → fs w' = fs w.
Proof.
  destruct settings as [s|].
  - intros Hi. by destruct (init_world _ _ _ _ _ Hi) as [->|(k & -> & _)].
  - by intros [= <- <-].
Qed.

Lemma init_inr_world s key w w' ctrl :
  __init__ (Some s) key w = (w', inr ctrl) → w' = w.
Proof.
  intros Hi. by destruct (init_world _ _ _ _ _ Hi) as [->|(k & _ & ?)].
Qed.

Lemma write_text_replaces p content w :
  is_dir (fs w) (parent p) = true →
  node_at (fs w) p ≠ Some Dir →
  write_text p content w
  = ({| fs := <[p := File content]> (fs w); stdout := stdout w |}, inr tt).
Proof.
  unfold write_text, fs_write_text, is_dir. intros Hd Hp.
  destruct (node_at (fs w) p) as [[]|];
    destruct (node_at (fs w) (parent p)) as [[]|]; done.
Qed.

Lemma for_each_init_fs settings keys w w' r :
  for_each (__init__ settings) keys w = (w', r) → fs w' = fs w.
Proof.
  revert w r. induction keys as [|k keys IH]; intros w r; cbn [for_each].
  - by intros [= <- <-].
  - unfold mbind at 1, M_bind at 1.
    destruct (__init__ settings k w) as [w1 [exc|c]] eqn:Hi.
    + intros [= <- <-]. by eapply init_fs.
    + unfold mbind at 1, M_bind at 1.
      destruct (for_each _ keys w1) as [w2 [exc|cs]] eqn:Hf;
        intros [= <- <-]; rewrite (IH _ _ Hf); by eapply init_fs.
Qed.

Lemma Path_of_str_parts s :
  Forall (λ c, c ≠ EmptyString ∧ c ≠ ".") (parts (Path_of_str s)).
Proof.
  unfold Path_of_str. cbn [parts]. apply Forall_forall.
  by intros c [? _]%list_elem_of_filter.
Qed.

(** The loader, asked for the last component of [tp] in the directory of
    [tp], reads the file at [tp]. *)
Lemma get_source_at tp files :
  parts tp ≠ [] → name tp ≠ ".." →
  Forall (λ c, c ≠ EmptyString ∧ c ≠ ".") (parts tp) →
  get_source (parent tp) (name tp) files =
  match node_at files tp with
  | Some (File source) => bytes_decode source
  | _ => inl (TemplateNotFound (name tp))
  end.
Proof.
  intros Hp Hdd Hall. unfold get_source.
  rewrite bool_decide_false by done.
  pose proof (app_removelast_last EmptyString Hp) as Hl.
  assert (name tp ≠ EmptyString ∧ name tp ≠ ".") as [Hn1 Hn2].
  { apply (proj1 (Forall_forall _ _) Hall). unfold name.
    rewrite Hl at 2. apply elem_of_app. right. by left. }
  rewrite bool_decide_false by by intros [?|?].
  assert ({| absolute := absolute (parent tp);
             parts := parts (parent tp) ++ [name tp] |} = tp) as ->.
  { destruct tp as [a l]. unfold parent, name in *. cbn in *.
    by rewrite <- Hl. }
  done.
Qed.

Lemma get_source_none tp files :
  parts tp = [] ∨ name tp = ".." →
  get_source (parent tp) (name tp) files = inl (TemplateNotFound (name tp)).
Proof.
  unfold get_source. intros [Hp|Hn].
  - unfold name, parent. rewrite Hp. cbn. unfold node_at. by cbn.
  - by rewrite bool_decide_true.
Qed.

(** C8. The destination format is resolved when the controller reads its
    destination, once. A format string that is a key of the serializer
    table gives a [DestSpec] bound to that tag, and every rendering is the
    serialization of the data under the tag. Any other format string is
    taken as the path of a template file: the file at that path is read,
    decoded and compiled at that moment, and there is no template when no
    file is there; the [DestSpec] holds the compiled template, and every rendering,
    in whatever state the file system is by then, is the rendering of that
    template. *)
Theorem dest_format_resolution settings key entry dest_items p fmt w :
  assoc key (OBJECTS settings) = Some (VDict entry) →
  assoc "dest" entry = Some (VDict dest_items) →
  assoc "path" dest_items = Some (VStr p) →
  assoc "format" dest_items = Some (VStr fmt) →
  (fmt ∈ DUMPERS →
     let spec := {| path := Path_of_str p; format := FormatT fmt |} in
     _get_dest settings key w = (w, inr spec)
     ∧ ∀ self action data w',
         dest self = spec →
         _do self action data w'
         = (content ← lift (dumps fmt data); action content) w')
  ∧ (fmt ∉ DUMPERS →
     let template_path := Path_of_str fmt in
     let spec t := {| path := Path_of_str p; format := JinjaTemplate t |} in
     _get_dest settings key w
     = (w, match @mbind (sum exn) _ _ _ jinja_compile
                   (get_source (parent template_path) (name template_path)
                      (fs w)) with
           | inl exc => inl exc
           | inr t => inr (spec t)
           end)
     ∧ (parts template_path ≠ [] → name template_path ≠ ".." →
        _get_dest settings key w
        = (w, match node_at (fs w) template_path with
              | Some (File source) =>
                  match bytes_decode source with
                  | inl exc => inl exc
                  | inr text =>
                      match jinja_compile text with
                      | inl exc => inl exc
                      | inr t => inr (spec t)
                      end
                  end
              | _ => inl (TemplateNotFound (name template_path))
              end))
     ∧ (parts template_path = [] ∨ name template_path = ".." →
        _get_dest settings key w
        = (w, inl (TemplateNotFound (name template_path))))
     ∧ ∀ t self action data w',
         dest self = spec t →
         _do self action data w'
         = (content ← lift (jinja_render t data); action content) w').
Proof.
  intros He Hd Hp Hf.
  assert (dest_lookups (VDict (OBJECTS settings)) key =
          if bool_decide (fmt ∈ DUMPERS)
          then inr (inl {| path := Path_of_str p; format := FormatT fmt |})
          else inr (inr (Path_of_str p, Path_of_str fmt))) as Hl.
  { unfold dest_lookups. run_lookups. by case_bool_decide. }
  split; intros Hin; cbn zeta.
  - split.
    + rewrite get_dest_eq, Hl. by rewrite bool_decide_true.
    + intros self action data w' Hs. apply do_serializer. by rewrite Hs.
  - assert (_get_dest settings key w
            = (w, match @mbind (sum exn) _ _ _ jinja_compile
                          (get_source (parent (Path_of_str fmt))
                             (name (Path_of_str fmt)) (fs w)) with
                  | inl exc => inl exc
                  | inr t => inr {| path := Path_of_str p;
                                    format := JinjaTemplate t |}
                  end)) as Hget.
    { rewrite get_dest_eq, Hl. by rewrite bool_decide_false. }
    split; [done|]. split; [|split].
    + intros Hparts Hname. rewrite Hget.
      rewrite get_source_at by auto using Path_of_str_parts.
      destruct (node_at (fs w) (Path_of_str fmt)) as [[source|]|]; try done.
      by destruct (bytes_decode source).
    + intros Hnone. rewrite Hget. by rewrite get_source_none.
    + intros t self action data w' Hs. apply do_template. by rewrite Hs.
Qed.

(** C9. [get] and [write] run the same fetch, decode and render steps: when
    one of these raises, both raise the same exception and deliver nothing;
    otherwise [get] prints the rendered text and [write] writes the very
    same text to the destination path. [write] always overwrites: where
    the parent of the destination is a directory and the destination is
    not one itself, it returns, and the destination then holds the
    rendered text and nothing of what it held before. *)
Theorem write_delivers_what_get_prints self w :
  match rendered self with
  | inl exc => get self w = (w, inl exc) ∧ write self w = (w, inl exc)
  | inr content =>
      get self w = ({| fs := fs w; stdout := stdout w ++ [content] |}, inr tt)
      ∧ write self w = write_text (path (dest self)) content w
      ∧ (∀ w', write self w = (w', inr tt) →
               node_at (fs w') (path (dest self)) = Some (File content)
               ∧ stdout w' = stdout w)
      ∧ (is_dir (fs w) (parent (path (dest self))) = true →
         node_at (fs w) (path (dest self)) ≠ Some Dir →
         ∃ w', write self w = (w', inr tt)
               ∧ node_at (fs w') (path (dest self)) = Some (File content)
               ∧ stdout w' = stdout w)
  end.
Proof.
  assert (∀ action,
            (raw ← lift (backend_get (backend self));
             data ← lift (loads (src_format self) raw);
             _do self action data) w
            = match rendered self with
              | inl exc => (w, inl exc)
              | inr content => action content w
              end) as Hpipe.
  { intros action. unfold rendered, _do, is_template, lift.
    unfold mbind, M_bind, result_bind.
    destruct (backend_get (backend self)) as [|raw]; [done|].
    destruct (loads (src_format self) raw) as [|data]; [done|].
    destruct (format (dest self)) as [fmt|t].
    - by destruct (dumps fmt data).
    - by destruct (jinja_render t data). }
  unfold get, write. rewrite !Hpipe.
  destruct (rendered self) as [exc|content]; [done|].
  split; [done|]. split; [done|]. split.
  - intros w'. unfold write_text, fs_write_text.
    destruct (node_at (fs w) (path (dest self))) as [[]|] eqn:Hn;
      destruct (node_at (fs w) (parent (path (dest self)))) as [[]|];
      intros; simplify_eq/=; (split; [|done]).
    all: unfold node_at in *; destruct (parts (path (dest self)));
      [done|apply lookup_insert_eq].
  - intros Hd Hp. rewrite write_text_replaces by done.
    eexists. split; [done|]. split; [|done]. cbn [fs].
    apply node_at_insert_eq. intros Hnil. apply Hp. unfold node_at.
    by rewrite Hnil.
Qed.

(** *** The file system under the controllers' writes *)

Lemma write_text_keeps p content w w' r :
  write_text p content w = (w', r) → keeps_dirs (fs w) (fs w').
Proof.
  unfold write_text.
  destruct (fs_write_text p content (fs w)) eqn:Hw; intros; simplify_eq/=.
  - apply keeps_dirs_refl.
  - by eapply fs_write_text_keeps.
Qed.

Lemma write_text_parent p content w :
  is_dir (fs w) (parent p) = true →
  (write_text p content w).2 ≠ inl FileNotFoundError.
Proof.
  intros Hd. unfold write_text.
  pose proof (fs_write_text_parent p content (fs w) Hd) as Hw.
  destruct (fs_write_text p content (fs w)); cbn; congruence.
Qed.

Lemma mkdir_keeps p w w' r :
  mkdir p w = (w', r) → keeps_dirs (fs w) (fs w').
Proof.
  unfold mkdir, mkdir_parents_exist_ok.
  destruct (mkdir_from _ p (fs w)) eqn:Hm; intros; simplify_eq/=.
  - apply keeps_dirs_refl.
  - by eapply mkdir_from_keeps.
Qed.

Lemma mkdir_is_dir p w w' :
  mkdir p w = (w', inr tt) → is_dir (fs w') p = true.
Proof.
  unfold mkdir, mkdir_parents_exist_ok.
  destruct (mkdir_from _ p (fs w)) eqn:Hm; intros; simplify_eq/=.
  by eapply mkdir_from_is_dir.
Qed.

Lemma do_write_keeps self p data w w' r :
  _do self (write_text p) data w = (w', r) → keeps_dirs (fs w) (fs w').
Proof.
  unfold _do, lift, raise, mbind, M_bind.
  repeat case_match; intros; simplify_eq;
    first [apply keeps_dirs_refl | by eapply write_text_keeps].
Qed.

Lemma resume_keeps t w w' r :
  resume t w = (w', r) → keeps_dirs (fs w) (fs w').
Proof.
  unfold resume, lift, raise, mret, M_ret.
  destruct (task_items t) as [|content items].
  - destruct (task_end t); intros; simplify_eq; apply keeps_dirs_refl.
  - unfold mbind at 1, M_bind at 1.
    destruct (loads _ content) as [|data];
      [intros; simplify_eq; apply keeps_dirs_refl|].
    unfold mbind, M_bind.
    destruct (_do _ _ data w) as [w1 [|[]]] eqn:Hdo; intros; simplify_eq;
      by eapply do_write_keeps.
Qed.

Lemma wind_down_keeps late tasks w w' tasks' :
  wind_down late tasks w = (w', tasks') → keeps_dirs (fs w) (fs w').
Proof.
  revert tasks w. induction late as [|i late IH]; intros tasks w;
    cbn [wind_down].
  - intros [= <- <-]. apply keeps_dirs_refl.
  - destruct (tasks !! i) as [t|]; [|apply IH].
    destruct (task_done t); [apply IH|].
    destruct (resume t w) as [w1 [exc|t']] eqn:Hr; intros Hw;
      (eapply keeps_dirs_trans; [by eapply resume_keeps|by eapply IH]).
Qed.

Lemma gather_keeps schedule tasks w w' res :
  gather schedule tasks w = (w', res) → keeps_dirs (fs w) (fs w').
Proof.
  revert tasks w. induction schedule as [|i schedule IH]; intros tasks w;
    cbn [gather].
  - case_match; intros; simplify_eq; apply keeps_dirs_refl.
  - destruct (forallb task_done tasks);
      [intros; simplify_eq; apply keeps_dirs_refl|].
    destruct (tasks !! i) as [t|]; [|apply IH].
    destruct (task_done t); [apply IH|].
    destruct (resume t w) as [w1 [exc|t']] eqn:Hr.
    + destruct (wind_down _ _ w1) as [w2 tasks2] eqn:Hw.
      intros [= <- <-].
      eapply keeps_dirs_trans;
        [by eapply resume_keeps|by eapply wind_down_keeps].
    + intros Hg. eapply keeps_dirs_trans; [by eapply resume_keeps|].
      by eapply IH.
Qed.

Lemma for_each_mkdir controllers w w' l :
  for_each (λ ctrl, mkdir (parent (path (dest ctrl)))) controllers w
  = (w', inr l) →
  keeps_dirs (fs w) (fs w')
  ∧ ∀ ctrl, ctrl ∈ controllers →
            is_dir (fs w') (parent (path (dest ctrl))) = true.
Proof.
  revert w l. induction controllers as [|c controllers IH]; intros w l;
    cbn [for_each]; unfold mret, M_ret.
  - intros; simplify_eq. split; [apply keeps_dirs_refl|].
    by intros ctrl ?%elem_of_nil.
  - unfold mbind at 1, M_bind at 1.
    destruct (mkdir _ w) as [w1 [|[]]] eqn:Hm; [done|].
    unfold mbind at 1, M_bind at 1.
    destruct (for_each _ controllers w1) as [w2 [|l']] eqn:Hf; [done|].
    intros; simplify_eq. destruct (IH _ _ Hf) as [Hk Hall].
    split.
    + eapply keeps_dirs_trans; [by eapply mkdir_keeps|done].
    + intros ctrl [->|Hin]%elem_of_cons; [|by apply Hall].
      by eapply Hk, mkdir_is_dir.
Qed.

(** *** The supervisor *)



Lemma monitor_setup_inr settings w w0 controllers :
  monitor_setup settings w = (w0, inr controllers) →
  ∃ wc l,
    for_each (λ ctrl, mkdir (parent (path (dest ctrl)))) controllers wc
    = (w0, inr l)
    ∧ fs wc = fs w.
Proof.
  unfold monitor_setup. destruct settings as [s|]; [|done].
  unfold mbind at 1, M_bind at 1.
  destruct (for_each _ _ w) as [wc [|cs]] eqn:Hi; [done|].
  unfold mbind at 1, M_bind at 1.
  destruct (for_each _ cs wc) as [w1 [|l]] eqn:Hf; [done|].
  unfold mret, M_ret. intros; simplify_eq.
  apply for_each_init_fs in Hi. eauto.
Qed.

Lemma mkdir_consistent p w w' r :
  mkdir p w = (w', r) → consistent (fs w) → consistent (fs w').
Proof.
  unfold mkdir, mkdir_parents_exist_ok.
  destruct (mkdir_from _ p (fs w)) eqn:Hm; intros; simplify_eq/=; [done|].
  by eapply mkdir_from_consistent.
Qed.

Lemma for_each_mkdir_consistent controllers w w' r :
  for_each (λ ctrl, mkdir (parent (path (dest ctrl)))) controllers w
  = (w', r) →
  consistent (fs w) → consistent (fs w').
Proof.
  revert w r. induction controllers as [|c controllers IH]; intros w r;
    cbn [for_each].
  - by intros [= <- <-].
  - unfold mbind at 1, M_bind at 1.
    destruct (mkdir _ w) as [w1 [exc|[]]] eqn:Hm.
    + intros [= <- <-] Hc. by eapply mkdir_consistent.
    + unfold mbind at 1, M_bind at 1.
      destruct (for_each _ controllers w1) as [w2 [exc|cs]] eqn:Hf;
        intros [= <- <-] Hc;
        (eapply IH; [done|by eapply mkdir_consistent]).
Qed.

(** *** After the first failure *)

Lemma resume_inr_task t w w' t' :
  resume t w = (w', inr t') →
  task_ctrl t' = task_ctrl t
  ∧ task_items t' `suffix_of` task_items t
  ∧ length (task_items t) ≤ S (length (task_items t')).
Proof.
  unfold resume. destruct (task_items t) as [|content items].
  - destruct (task_end t); [done|]. intros [= <- <-]. cbn. by auto.
  - unfold mbind at 1, M_bind at 1.
    destruct (lift _ w) as [w1 [|data]]; [done|].
    unfold mbind, M_bind.
    destruct (_do _ _ data w1) as [w2 [|[]]]; [done|].
    intros [= <- <-]. cbn. split; [done|]. split; [|lia].
    by exists [content].
Qed.






(** C10. [apply] makes the parent directory of the destination before it
    writes, and [monitor] makes the parent directory of every destination
    before the event loop starts, each with all its missing ancestors: in a
    consistent file system every ancestor of the parent is a directory
    afterwards. From then on, whatever the controllers have written
    meanwhile, no write of a controller fails for want of its parent
    directory. Making a directory that exists changes nothing, and making
    one succeeds, with all missing ancestors made, when no file stands in
    the way. *)
Theorem parent_directories_created settings :
  (∀ key poll w wc ctrl wm,
     __init__ settings key w = (wc, inr ctrl) →
     mkdir (parent (path (dest ctrl))) wc = (wm, inr tt) →
     apply settings key poll w = (if poll then awrite ctrl else write ctrl) wm
     ∧ is_dir (fs wm) (parent (path (dest ctrl))) = true
     ∧ (∀ content,
          (write_text (path (dest ctrl)) content wm).2
          ≠ inl FileNotFoundError)
     ∧ (consistent (fs w) →
        ∀ k, k ≤ length (parts (parent (path (dest ctrl)))) →
             is_dir (fs wm) (ancestor k (parent (path (dest ctrl)))) = true))
  ∧ (∀ w w0 controllers,
       monitor_setup settings w = (w0, inr controllers) →
       (∀ schedule,
          monitor settings schedule w
          = gather schedule (create_task <$> controllers) w0)
       ∧ (∀ schedule w1 res ctrl content,
            gather schedule (create_task <$> controllers) w0 = (w1, res) →
            ctrl ∈ controllers →
            is_dir (fs w1) (parent (path (dest ctrl))) = true
            ∧ (write_text (path (dest ctrl)) content w1).2
              ≠ inl FileNotFoundError)
       ∧ (consistent (fs w) →
          ∀ ctrl k,
            ctrl ∈ controllers →
            k ≤ length (parts (parent (path (dest ctrl)))) →
            is_dir (fs w0) (ancestor k (parent (path (dest ctrl)))) = true))
  ∧ (∀ p w, is_dir (fs w) p = true →
            mkdir p w = ({| fs := fs w; stdout := stdout w |}, inr tt))
  ∧ (∀ p w,
       (∀ k, k ≤ length (parts p) → is_file (fs w) (ancestor k p) = false) →
       ∃ w', mkdir p w = (w', inr tt) ∧ is_dir (fs w') p = true)
  ∧ (∀ p w,
       consistent (fs w) →
       (∀ k, k ≤ length (parts p) → is_file (fs w) (ancestor k p) = false) →
       ∃ w', mkdir p w = (w', inr tt)
             ∧ (∀ k, k ≤ length (parts p) →
                     is_dir (fs w') (ancestor k p) = true)
             ∧ consistent (fs w')
             ∧ stdout w' = stdout w).
Proof.
  split; [|split; [|split; [|split]]].
  - intros key poll w wc ctrl wm Hinit Hmk.
    pose proof (mkdir_is_dir _ _ _ Hmk) as Hdir.
    split; [|split; [done|split]].
    + unfold apply, mbind at 1, M_bind at 1. rewrite Hinit.
      unfold mbind at 1, M_bind at 1. by rewrite Hmk.
    + intros content. by apply write_text_parent.
    + intros Hc. apply consistent_ancestors; [|done].
      eapply mkdir_consistent; [done|].
      by rewrite (init_fs _ _ _ _ _ Hinit).
  - intros w w0 controllers Hsetup. split; [|split].
    + intros schedule. unfold monitor. by rewrite Hsetup.
    + intros schedule w1 res ctrl content Hg Hin.
      destruct (monitor_setup_inr _ _ _ _ Hsetup) as (wc & l & Hmk & _).
      destruct (for_each_mkdir _ _ _ _ Hmk) as [_ Hall].
      assert (is_dir (fs w1) (parent (path (dest ctrl))) = true) as Hdir.
      { eapply gather_keeps; [done|]. by apply Hall. }
      split; [done|]. by apply write_text_parent.
    + intros Hc ctrl k Hin.
      destruct (monitor_setup_inr _ _ _ _ Hsetup) as (wc & l & Hmk & Hfs).
      destruct (for_each_mkdir _ _ _ _ Hmk) as [_ Hall].
      apply consistent_ancestors; [|by apply Hall].
      eapply for_each_mkdir_consistent; [done|]. by rewrite Hfs.
  - intros p w Hd. unfold mkdir. by rewrite mkdir_exists.
  - intros p w Hfree. unfold mkdir, mkdir_parents_exist_ok.
    destruct (mkdir_creates _ p (fs w) eq_refl Hfree) as [files' Hm].
    rewrite Hm. eexists. split; [done|]. cbn [fs].
    by eapply mkdir_from_is_dir.
  - intros p w Hc Hfree. unfold mkdir, mkdir_parents_exist_ok.
    destruct (mkdir_creates _ p (fs w) eq_refl Hfree) as [files' Hm].
    rewrite Hm. eexists. split; [done|]. cbn [fs stdout].
    assert (consistent files') as Hc' by by eapply mkdir_from_consistent.
    split; [|done]. apply consistent_ancestors; [done|].
    by eapply mkdir_from_is_dir.
Qed.

Lemma gather_step i schedule tasks w t :
  forallb task_done tasks = false →
  tasks !! i = Some t →
  task_done t = false →
  gather (i :: schedule) tasks w =
  match resume t w with
  | (w', inr t') => gather schedule (<[i := t']> tasks) w'
  | (w', inl exc) =>
      let '(w'', tasks') :=
        wind_down schedule (<[i := set_state t (Failed exc)]> tasks) w' in
      (w'', Raised exc tasks')
  end.
Proof. intros Hf Hi Hd. cbn [gather]. by rewrite Hf, Hi, Hd. Qed.

Lemma wind_down_all_done late tasks w :
  forallb task_done tasks = true →
  wind_down late tasks w = (w, cancel <$> tasks).
Proof.
  intros Hall. induction late as [|i late IH]; cbn [wind_down]; [done|].
  destruct (tasks !! i) as [t|] eqn:Hi; [|done].
  rewrite forallb_forall in Hall. rewrite Hall; [done|].
  apply list_elem_of_In. by eapply list_elem_of_lookup_2.
Qed.

Lemma resume_cons ctrl content items ending w :
  resume {| task_ctrl := ctrl; task_items := content :: items;
            task_end := ending; task_state := Pending |} w =
  match (data ← lift (loads (src_format ctrl) content);
         _do ctrl (write_text (path (dest ctrl))) data) w with
  | (w', inr _) =>
      (w', inr {| task_ctrl := ctrl; task_items := items;
                  task_end := ending; task_state := Pending |})
  | (w', inl exc) => (w', inl exc)
  end.
Proof.
  unfold resume. cbn [task_items task_ctrl task_end].
  unfold mbind, M_bind, lift, mret, M_ret.
  destruct (loads (src_format ctrl) content) as [|data]; [done|].
  by destruct (_do ctrl _ data w) as [w' [|[]]].
Qed.

(** A task resumed until its stream is used up does what [awrite] does. *)
Lemma gather_alone ctrl items ending w :
  let t := {| task_ctrl := ctrl; task_items := items;
              task_end := ending; task_state := Pending |} in
  let run := gather (replicate (S (length items)) 0) [t] w in
  let body := λ content,
    data ← lift (loads (src_format ctrl) content);
    _do ctrl (write_text (path (dest ctrl))) data in
  match async_for items ending body w with
  | (w', inr _) => run = (w', Returned)
  | (w', inl exc) => run.1 = w' ∧ raised_by run.2 = Some exc
  end.
Proof.
  cbn zeta. revert w. induction items as [|content items IH]; intros w.
  - cbn. by destruct ending.
  - cbn [length replicate]. rewrite gather_step with (t := _) by done.
    rewrite resume_cons. cbn [async_for].
    generalize (lift (loads (src_format ctrl) content)
                ≫= λ data, _do ctrl (write_text (path (dest ctrl))) data).
    intros step. unfold mbind at 1, M_bind.
    destruct (step w) as [w1 [exc|[]]].
    + cbn [insert list_insert]. by rewrite wind_down_all_done.
    + cbn [insert list_insert]. apply IH.
Qed.

End WithCollaborators.

Lemma missing_key_reported_witness :
  __init__ (Some no_dest_slow) "example" empty_world
  = ({| fs := ∅;
        stdout := ["[red]ERROR[/]: Missing key: [green]dest[/]" +:+ nl;
                   "OBJECTS"] |},
     inl (Exit 1)).
Proof.
  pose proof (missing_key_reported no_dest_slow "example"
                [("source", VDict [("backend", VStr "slow");
                                   ("init", VDict [("kwargs", VDict [])])])]
                empty_world eq_refl) as (_ & _ & Hd).
  destruct (Hd (VStr "raw", fixed_backend "b0" (["b1"; "b2"; "b3"], None))
              eq_refl) as [Hdest _].
  exact (Hdest eq_refl).
Defined.

Lemma dest_format_resolution_witness :
  _get_dest two_objects "a" empty_world
  = (empty_world,
     inr {| path := Path_of_str "/etc/a/a.conf"; format := FormatT "raw" |})
  ∧ _get_dest templated "t" (template_world "old text")
    = (template_world "old text",
       inr {| path := Path_of_str "/etc/t.conf";
              format := JinjaTemplate ("old text" : Template) |})
  ∧ _get_dest templated "t" empty_world
    = (empty_world, inl (TemplateNotFound "t.j2")).
Proof.
  split; [|split].
  - refine (proj1 (proj1 (dest_format_resolution two_objects "a" _ _
                            "/etc/a/a.conf" "raw" empty_world
                            eq_refl eq_refl eq_refl eq_refl) _)).
    by apply (bool_decide_unpack _).
  - destruct (proj2 (dest_format_resolution templated "t" _ _
                       "/etc/t.conf" "/templates/t.j2"
                       (template_world "old text")
                       eq_refl eq_refl eq_refl eq_refl))
      as (_ & Hfile & _); [by apply (bool_decide_unpack _)|].
    refine (Hfile _ _); by vm_compute.
  - destruct (proj2 (dest_format_resolution templated "t" _ _
                       "/etc/t.conf" "/templates/t.j2" empty_world
                       eq_refl eq_refl eq_refl eq_refl))
      as (_ & Hfile & _); [by apply (bool_decide_unpack _)|].
    refine (Hfile _ _); by vm_compute.
Defined.

(** The template is the one compiled at construction: the controller built
    while the file held one text renders that text after the file was
    replaced by another. *)
Example template_compiled_once :
  __init__ (Some templated) "t" (template_world "old text")
  = (template_world "old text", inr (templated_ctrl "old text"))
  ∧ get (templated_ctrl "old text") (template_world "new text")
    = ({| fs := fs (template_world "new text"); stdout := ["old text"] |},
       inr tt).
Proof. split; reflexivity. Qed.

Lemma write_delivers_what_get_prints_witness :
  let old := (write_text (Path_of_str "/etc/b/b.conf") "old" world_b).1 in
  get ctrl_b world_b
  = ({| fs := fs world_b; stdout := ["b0"] |}, inr tt)
  ∧ node_at (fs old) (Path_of_str "/etc/b/b.conf") = Some (File "old")
  ∧ ∃ w', write ctrl_b old = (w', inr tt)
          ∧ node_at (fs w') (Path_of_str "/etc/b/b.conf") = Some (File "b0")
          ∧ stdout w' = stdout old.
Proof.
  cbn zeta.
  pose proof (write_delivers_what_get_prints ctrl_b world_b) as Hw.
  destruct Hw as (Hg & _). split; [exact Hg|]. split; [reflexivity|].
  pose proof (write_delivers_what_get_prints ctrl_b
                (write_text (Path_of_str "/etc/b/b.conf") "old" world_b).1)
    as Hw.
  destruct Hw as (_ & _ & _ & Hover).
  apply Hover; [reflexivity|by vm_compute].
Defined.


(** The first controller fails at its second resumption, and the
    supervisor raises that failure. Whether the event loop gives the second
    controller one more turn or none, that controller ends by being
    cancelled, with updates left that it would have written on its own. *)
Example monitor_cancels_siblings :
  let run := monitor (Some two_objects) [0; 1; 0; 1] empty_world in
  let run' := monitor (Some two_objects) [0; 1; 0] empty_world in
  let b_conf := Path_of_str "/etc/b/b.conf" in
  raised_by run.2 = Some (OtherError "RuntimeError" "boom")
  ∧ states run.2 = [Failed (OtherError "RuntimeError" "boom"); Cancelled]
  ∧ left_over run.2 = [[]; ["b3"]]
  ∧ node_at (fs run.1) b_conf = Some (File "b2")
  ∧ raised_by run'.2 = Some (OtherError "RuntimeError" "boom")
  ∧ states run'.2 = [Failed (OtherError "RuntimeError" "boom"); Cancelled]
  ∧ left_over run'.2 = [[]; ["b2"; "b3"]]
  ∧ node_at (fs run'.1) b_conf = Some (File "b1")
  ∧ node_at (fs (awrite ctrl_b world_ab).1) b_conf = Some (File "b3")
  ∧ ¬ every_task_finished run.2
  ∧ ¬ every_task_finished run'.2.
Proof.
  cbn zeta. repeat split; try reflexivity.
  - intros Hall. apply Forall_cons_1 in Hall as [_ Hall].
    by apply Forall_cons_1 in Hall as [? _].
  - intros Hall. apply Forall_cons_1 in Hall as [_ Hall].
    by apply Forall_cons_1 in Hall as [? _].
Qed.

Lemma parent_directories_created_witness :
  (apply (Some two_objects) "b" true empty_world = awrite ctrl_b world_b
   ∧ is_dir (fs world_b) (Path_of_str "/etc/b") = true
   ∧ (write_text (Path_of_str "/etc/b/b.conf") "b1" world_b).2
     ≠ inl FileNotFoundError
   ∧ is_dir (fs world_b) (Path_of_str "/etc") = true)
  ∧ (write_text (Path_of_str "/etc/b/b.conf") "b2"
       (gather [0; 1] (create_task <$> [ctrl_a; ctrl_b]) world_ab).1).2
    ≠ inl FileNotFoundError
  ∧ (∃ w', mkdir (Path_of_str "/etc/b") empty_world = (w', inr tt)
           ∧ is_dir (fs w') (Path_of_str "/etc/b") = true)
  ∧ ∃ w', mkdir (Path_of_str "/srv/app/conf.d") empty_world = (w', inr tt)
          ∧ is_dir (fs w') (Path_of_str "/srv") = true
          ∧ is_dir (fs w') (Path_of_str "/srv/app") = true
          ∧ is_dir (fs w') (Path_of_str "/srv/app/conf.d") = true.
Proof.
  destruct (parent_directories_created (Some two_objects))
    as (Happly & Hmonitor & _ & Hcreates & Hancestors).
  split; [|split; [|split]].
  - destruct (Happly "b" true empty_world empty_world ctrl_b world_b
                eq_refl eq_refl) as (Ha & Hd & Hw & Hanc).
    split; [exact Ha|]. split; [exact Hd|]. split; [exact (Hw "b1")|].
    apply (Hanc consistent_empty 1). vm_compute. lia.
  - destruct (Hmonitor empty_world world_ab [ctrl_a; ctrl_b] eq_refl)
      as (_ & Hwrites & _).
    refine (proj2 (Hwrites [0; 1] _ _ ctrl_b "b2" (surjective_pairing _) _)).
    apply elem_of_cons; right. apply elem_of_cons; by left.
  - apply Hcreates. intros [|[|[|k]]] _; reflexivity.
  - destruct (Hancestors (Path_of_str "/srv/app/conf.d") empty_world
                consistent_empty) as (w' & Hm & Hanc & _).
    { intros [|[|[|[|k]]]] _; reflexivity. }
    exists w'. split; [exact Hm|].
    split; [apply (Hanc 1); vm_compute; lia|].
    split; [apply (Hanc 2); vm_compute; lia|apply (Hanc 3); vm_compute; lia].
Defined.

(** A watch on a service that sends a value, reports no change, and sends a
    new value delivers twice, the first value and then the second. *)
Example watch_delivers_changes :
  backend_poll (backend ctrl_appconfig) = (["v1"; "v2"], None)
  ∧ stdout (aget ctrl_appconfig world_b).1 = ["v1"; "v2"]
  ∧ node_at (fs (awrite ctrl_appconfig world_b).1) (Path_of_str "/etc/b/b.conf")
    = Some (File "v2").
Proof. repeat split; reflexivity. Qed.

(** One-shot delivery of the raw string [hello]. *)
Example write_hello :
  node_at (fs (write ctrl_appconfig world_b).1) (Path_of_str "/etc/b/b.conf")
  = Some (File "hello").
Proof. reflexivity. Qed.

(** C7 fails as stated: this entry has no [dest], but the service finds
    nothing for the application name, and the construction ends with the
    [ValueError] of the name resolution: no key is reported. *)
Lemma missing_dest_not_reported :
  (entry ← getitem (VDict (OBJECTS no_dest)) "example"; getitem entry "dest")
  = inl (KeyError "dest")
  ∧ __init__ (Some no_dest) "example" empty_world
    = (empty_world,
       inl (ValueError
              (AppConfig.not_found_message AppConfig.list_applications
                 "app-name")))
  ∧ ∀ k, __init__ (Some no_dest) "example" empty_world
         ≠ (reported empty_world k (VDict (OBJECTS no_dest)), inl (Exit 1)).
Proof.
  assert (__init__ (Some no_dest) "example" empty_world
          = (empty_world,
             inl (ValueError
                    (AppConfig.not_found_message AppConfig.list_applications
                       "app-name")))) as Hinit by reflexivity.
  split; [reflexivity|]. split; [exact Hinit|].
  intros k. rewrite Hinit. intros [= _].
Qed.

End CliFacts.

(** * Further properties of the AppConfig backend *)

Module PollExtras.
Import AppConfig AppConfigMore PollFacts.

(** The example of the documentation of [__str__]. *)
Example str_example :
  __str__ backend_1
  = "AppConfigBackend(app_id='app-id', conf_profile_id='conf-id', env_id='env-id')".
Proof. reflexivity. Qed.

Lemma fatal_iteration interval token r :
  (poll_iteration interval token r).2
  = if fatal r then None
    else Some match r with
              | inl _ => token
              | inr resp => NextPollConfigurationToken resp
              end.
Proof.
  unfold poll_iteration, fatal, too_early.
  destruct r as [exc|resp].
  - destruct exc; try by rewrite bool_decide_true.
    repeat case_bool_decide; simplify_eq; try done; congruence.
  - case_bool_decide; [|done]. by destruct (bytes_decode _).
Qed.

Lemma fatal_iteration_raise interval token r :
  fatal r = true →
  (poll_iteration interval token r).1 = from_option (λ e, [Raise e]) [] (error_of r)
  ∧ is_Some (error_of r).
Proof.
  unfold poll_iteration, fatal, error_of, too_early.
  destruct r as [exc|resp].
  - intros Hf. split; [|by eexists].
    destruct exc; try done. apply bool_decide_eq_true in Hf.
    rewrite bool_decide_true; [done|congruence].
  - intros [Hne Hd]%andb_prop. rewrite Hne.
    destruct (bytes_decode _); [|done]. split; [done|by eexists].
Qed.

Lemma nonfatal_iteration_yields interval token r :
  fatal r = false →
  yields (poll_iteration interval token r).1 = nonempty_contents [r].
Proof.
  unfold poll_iteration, fatal, too_early. cbn [nonempty_contents].
  destruct r as [exc|resp].
  - intros Hf%bool_decide_eq_false. destruct exc; try (by destruct Hf).
    case_bool_decide; [|done]. destruct Hf. congruence.
  - case_bool_decide; [|done].
    destruct (bytes_decode _) as [|text] eqn:Hd; [done|].
    by apply decode_inr in Hd as ->.
Qed.

Lemma nonempty_contents_cons r answers :
  nonempty_contents (r :: answers)
  = nonempty_contents [r] ++ nonempty_contents answers.
Proof.
  cbn [nonempty_contents]. destruct r as [|resp]; [done|].
  by case_bool_decide.
Qed.

Lemma yields_poll_loop_cons interval token r answers :
  yields (poll_loop interval token (r :: answers))
  = yields (poll_iteration interval token r).1
    ++ match (poll_iteration interval token r).2 with
       | Some token' => yields (poll_loop interval token' answers)
       | None => []
       end.
Proof.
  cbn [poll_loop yields].
  destruct (poll_iteration interval token r) as [evs [token'|]];
    by rewrite yields_app.
Qed.

(** What a loop does, read off its answers: it yields the contents of the
    answers before the first fatal one, raises what that one raises, and has
    sent one request for each of them and one more. *)
Lemma poll_loop_summary interval token answers :
  yields (poll_loop interval token answers)
  = nonempty_contents (before_fatal answers)
  ∧ raised (poll_loop interval token answers) = first_fatal_error answers
  ∧ length (rounds (poll_loop interval token answers))
    = S (length (before_fatal answers)).
Proof.
  revert token. induction answers as [|r answers IH]; intros token; [done|].
  rewrite yields_poll_loop_cons, raised_poll_loop_cons, rounds_poll_loop_cons.
  rewrite fatal_iteration. cbn [before_fatal first_fatal_error length].
  destruct (fatal r) eqn:Hf.
  - destruct (fatal_iteration_raise interval token r Hf) as [-> [e ->]].
    by cbn.
  - rewrite (nonfatal_iteration_yields _ _ _ Hf).
    rewrite (nonempty_contents_cons r (before_fatal answers)).
    destruct (IH (match r with
                  | inl _ => token
                  | inr resp => NextPollConfigurationToken resp
                  end)) as (-> & -> & ->).
    done.
Qed.

Lemma before_fatal_all answers :
  Forall (λ r, fatal r = false) answers → before_fatal answers = answers.
Proof.
  induction 1 as [|r answers Hr _ IH]; [done|].
  cbn [before_fatal]. by rewrite Hr, IH.
Qed.

Lemma first_fatal_error_None answers :
  first_fatal_error answers = None ↔ Forall (λ r, fatal r = false) answers.
Proof.
  induction answers as [|r answers IH]; [done|].
  cbn [first_fatal_error]. destruct (fatal r) eqn:Hf.
  - destruct (fatal_iteration_raise 0 EmptyString r Hf) as [_ [e He]].
    rewrite He. split; [done|]. intros [Hr _]%Forall_cons_1. congruence.
  - rewrite IH. split; [by constructor|by intros [_ ?]%Forall_cons_1].
Qed.

Lemma yields_poll self interval srv token :
  start_configuration_session srv = inr token →
  yields (poll self interval srv)
  = yields (poll_loop interval token (get_latest_configuration srv)).
Proof. intros Hs. unfold poll. by rewrite Hs. Qed.

(** X1. Once the session has started, [poll] yields the decoded contents of
    the answers that come before the first fatal one, leaving out the empty
    ones, in the order of the answers; it sends one request for each of
    these answers and one more. When no answer is fatal it yields every
    non-empty content and raises nothing. *)
Theorem poll_yields_until_fatal self interval srv token :
  start_configuration_session srv = inr token →
  yields (poll self interval srv)
  = nonempty_contents (before_fatal (get_latest_configuration srv))
  ∧ length (request_tokens (poll self interval srv))
    = S (length (before_fatal (get_latest_configuration srv)))
  ∧ (Forall (λ r, fatal r = false) (get_latest_configuration srv) →
     yields (poll self interval srv)
     = nonempty_contents (get_latest_configuration srv)
     ∧ raised (poll self interval srv) = None).
Proof.
  intros Hs. unfold request_tokens.
  rewrite length_fmap, rounds_poll, (yields_poll _ _ _ _ Hs),
    (raised_poll _ _ _ _ Hs), Hs.
  destruct (poll_loop_summary interval token (get_latest_configuration srv))
    as (Hy & Hr & Hl).
  split; [done|]. split; [done|]. intros Hall.
  rewrite Hy, Hr, before_fatal_all by done.
  split; [done|]. by apply first_fatal_error_None.
Qed.

Lemma poll_yields_until_fatal_witness :
  yields (poll backend_1 60 script_fatal) = ["v1"]
  ∧ length (request_tokens (poll backend_1 60 script_fatal)) = 3
  ∧ yields (poll backend_1 60 script_retries) = ["v1"; "v2"].
Proof.
  destruct (poll_yields_until_fatal backend_1 60 script_fatal "t0" eq_refl)
    as (Hy & Hl & _).
  destruct (poll_yields_until_fatal backend_1 60 script_retries "t0" eq_refl)
    as (_ & _ & Hall).
  split; [exact Hy|]. split; [exact Hl|].
  apply Hall. repeat constructor.
Defined.

(** X2. What [poll] raises: the error of [start_configuration_session] when
    the session cannot start, otherwise the error of the first fatal answer:
    a service error other than [Request too early], or the decoding error of
    a non-empty content. It raises nothing exactly when the session starts
    and no answer is fatal. *)
Theorem poll_raises_first_fatal self interval srv :
  raised (poll self interval srv)
  = match start_configuration_session srv with
    | inl exc => Some exc
    | inr _ => first_fatal_error (get_latest_configuration srv)
    end
  ∧ (raised (poll self interval srv) = None ↔
     (∃ token, start_configuration_session srv = inr token)
     ∧ Forall (λ r, fatal r = false) (get_latest_configuration srv)).
Proof.
  assert (raised (poll self interval srv)
          = match start_configuration_session srv with
            | inl exc => Some exc
            | inr _ => first_fatal_error (get_latest_configuration srv)
            end) as Hr.
  { destruct (start_configuration_session srv) as [exc|token] eqn:Hs.
    - unfold poll. by rewrite Hs.
    - rewrite (raised_poll _ _ _ _ Hs). apply poll_loop_summary. }
  split; [done|]. rewrite Hr.
  destruct (start_configuration_session srv) as [exc|token].
  - split; [done|]. by intros [[? ?] _].
  - rewrite first_fatal_error_None. split; [eauto|by intros [_ ?]].
Qed.

Lemma nonempty_contents_before_fatal answers s :
  s ∈ nonempty_contents (before_fatal answers) →
  s ≠ EmptyString ∧ bytes_decode s = inr s.
Proof.
  induction answers as [|r answers IH]; cbn [before_fatal].
  { by intros ?%elem_of_nil. }
  destruct (fatal r) eqn:Hf; [by intros ?%elem_of_nil|].
  rewrite nonempty_contents_cons. intros [Hin|Hin]%elem_of_app; [|by apply IH].
  revert Hf Hin. unfold fatal. cbn [nonempty_contents].
  destruct r as [|resp]; [by intros _ ?%elem_of_nil|].
  case_bool_decide as Hne; [|by intros _ ?%elem_of_nil].
  destruct (bytes_decode (Configuration resp)) as [|text] eqn:Hd; [done|].
  intros _ ->%list_elem_of_singleton. split; [done|].
  by rewrite Hd, (decode_inr _ _ Hd).
Qed.

(** X3. [poll] never yields the empty string, and every string it yields is
    well-formed text: it decodes to itself. *)
Theorem poll_never_yields_empty self interval srv s :
  s ∈ yields (poll self interval srv) →
  s ≠ EmptyString ∧ bytes_decode s = inr s.
Proof.
  destruct (start_configuration_session srv) as [exc|token] eqn:Hs.
  - unfold poll. rewrite Hs. by intros ?%elem_of_nil.
  - rewrite (yields_poll _ _ _ _ Hs).
    destruct (poll_loop_summary interval token (get_latest_configuration srv))
      as (-> & _). apply nonempty_contents_before_fatal.
Qed.

Lemma poll_never_yields_empty_witness :
  "v1" ≠ EmptyString ∧ bytes_decode "v1" = inr "v1".
Proof.
  apply (poll_never_yields_empty backend_1 60 script_fatal "v1").
  apply list_elem_of_singleton. reflexivity.
Defined.

Lemma nonfatal_iteration_events interval token r :
  fatal r = false →
  let d := match r with
           | inl _ => (inject_Z interval / 2)%Q
           | inr resp => inject_Z (NextPollIntervalInSeconds resp)
           end in
  (poll_iteration interval token r).1 = [Sleep d]
  ∨ ∃ s, (poll_iteration interval token r).1 = [Yield s; Sleep d].
Proof.
  unfold poll_iteration, fatal, too_early. destruct r as [exc|resp]; cbn zeta.
  - intros Hf%bool_decide_eq_false. destruct exc; try (by destruct Hf).
    case_bool_decide; [|by left]. destruct Hf. congruence.
  - case_bool_decide; [|by left].
    destruct (bytes_decode _) as [|text]; [done|]. right. by eexists.
Qed.

Lemma rounds_length_answers interval token answers :
  length (rounds (poll_loop interval token answers)) ≤ S (length answers).
Proof.
  destruct (poll_loop_summary interval token answers) as (_ & _ & ->).
  apply le_n_S. clear. induction answers as [|r answers IH]; [done|].
  cbn [before_fatal]. destruct (fatal r); cbn [length]; lia.
Qed.

(** X4. Between a request and the next one [poll] always sleeps, exactly
    once: half the [interval] argument after [Request too early], the
    [NextPollIntervalInSeconds] of the response otherwise; the only other
    thing it may do in between is to yield the content of that response. *)
Theorem poll_sleeps_between_requests self interval srv i tok evs :
  rounds (poll self interval srv) !! i = Some (tok, evs) →
  is_Some (rounds (poll self interval srv) !! S i) →
  ∃ r d,
    get_latest_configuration srv !! i = Some r
    ∧ d = match r with
          | inl _ => (inject_Z interval / 2)%Q
          | inr resp => inject_Z (NextPollIntervalInSeconds resp)
          end
    ∧ (evs = [Sleep d] ∨ ∃ s, evs = [Yield s; Sleep d]).
Proof.
  intros Hi Hnext.
  assert (is_Some (get_latest_configuration srv !! i)) as [r Hr].
  { apply lookup_lt_is_Some. apply lookup_lt_is_Some in Hnext.
    rewrite rounds_poll in Hnext.
    destruct (start_configuration_session srv) as [|token]; [cbn in *; lia|].
    pose proof (rounds_length_answers interval token
                  (get_latest_configuration srv)). lia. }
  destruct (round_at _ _ _ _ _ _ _ Hi Hr) as (He & Hn & _).
  rewrite fatal_iteration in Hn.
  destruct (fatal r) eqn:Hf.
  { rewrite <- fmap_is_Some with (f := fst), Hn in Hnext. by destruct Hnext. }
  eexists r, _. split; [done|]. split; [done|]. rewrite He.
  apply (nonfatal_iteration_events interval tok r Hf).
Qed.

Lemma poll_sleeps_between_requests_witness :
  ∃ r d,
    get_latest_configuration script_retries !! 1 = Some r
    ∧ d = match r with
          | inl _ => (inject_Z 60 / 2)%Q
          | inr resp => inject_Z (NextPollIntervalInSeconds resp)
          end
    ∧ ([Sleep (60 # 2)] = [Sleep d] ∨ ∃ s, [Sleep (60 # 2)] = [Yield s; Sleep d]).
Proof.
  apply (poll_sleeps_between_requests backend_1 60 script_retries 1 "t1"
           [Sleep (60 # 2)] eq_refl).
  by eexists.
Defined.

(** X5. While the service answers [Request too early], [poll] repeats the
    request with the same token: over [k] such answers in a row every round
    is one sleep of half the interval, and the request after them carries
    the token of the first. *)
Theorem poll_retries_keep_token self interval srv i k tok evs :
  rounds (poll self interval srv) !! i = Some (tok, evs) →
  (∀ j, i ≤ j < i + k →
        get_latest_configuration srv !! j = Some (inl too_early)) →
  fst <$> rounds (poll self interval srv) !! (i + k) = Some tok
  ∧ ∀ j, i ≤ j < i + k →
         rounds (poll self interval srv) !! j
         = Some (tok, [Sleep (inject_Z interval / 2)]).
Proof.
  revert evs. induction k as [|k IH]; intros evs Hi Hearly.
  - rewrite Nat.add_0_r, Hi. split; [done|]. intros j ?. lia.
  - destruct (IH evs Hi) as [Hk Hbefore]. { intros j ?. apply Hearly. lia. }
    destruct (rounds (poll self interval srv) !! (i + k))
      as [[tok' evs']|] eqn:Hik; [|done].
    cbn in Hk. simplify_eq.
    destruct (round_at _ _ _ _ _ _ _ Hik (Hearly (i + k) ltac:(lia)))
      as (He & Hn & _).
    cbn in He, Hn. replace (i + S k) with (S (i + k)) by lia.
    split; [done|]. intros j Hj.
    destruct (decide (j = i + k)) as [->|]; [by rewrite Hik, He|].
    apply Hbefore. lia.
Qed.

Lemma poll_retries_keep_token_witness :
  fst <$> rounds (poll backend_1 60 script_retries) !! (1 + 2) = Some "t1".
Proof.
  refine (proj1 (poll_retries_keep_token backend_1 60 script_retries 1 2 "t1"
                   [Sleep (60 # 2)] eq_refl _)).
  intros [|[|[|j]]] Hj; try reflexivity; lia.
Defined.

Lemma request_tokens_poll_loop interval token answers tok :
  tok ∈ (rounds (poll_loop interval token answers)).*1 →
  tok = token
  ∨ ∃ resp, inr resp ∈ answers ∧ tok = NextPollConfigurationToken resp.
Proof.
  revert token. induction answers as [|r answers IH]; intros token.
  { rewrite rounds_poll_loop_nil. cbn. intros ->%list_elem_of_singleton.
    by left. }
  rewrite rounds_poll_loop_cons, fatal_iteration. cbn [fmap list_fmap fst].
  intros [->|Hin]%elem_of_cons; [by left|].
  destruct (fatal r); [by apply elem_of_nil in Hin|].
  apply IH in Hin as [->|(resp & Hin & ->)].
  - destruct r as [|resp]; [by left|]. right. exists resp.
    split; [apply elem_of_cons; by left|done].
  - right. exists resp. split; [apply elem_of_cons; by right|done].
Qed.

(** X6. [poll] makes up no token: the token of every request is the initial
    token of the session or the [NextPollConfigurationToken] of one of the
    responses. *)
Theorem poll_tokens_from_service self interval srv tok :
  tok ∈ request_tokens (poll self interval srv) →
  start_configuration_session srv = inr tok
  ∨ ∃ resp, inr resp ∈ get_latest_configuration srv
            ∧ tok = NextPollConfigurationToken resp.
Proof.
  unfold request_tokens. rewrite rounds_poll.
  destruct (start_configuration_session srv) as [|token].
  { by intros ?%elem_of_nil. }
  intros [->|?]%request_tokens_poll_loop; [by left|by right].
Qed.

Lemma poll_tokens_from_service_witness :
  start_configuration_session script_retries = inr "t2"
  ∨ ∃ resp, inr resp ∈ get_latest_configuration script_retries
            ∧ "t2" = NextPollConfigurationToken resp.
Proof.
  apply (poll_tokens_from_service backend_1 60 script_retries "t2").
  apply list_elem_of_lookup. by exists 4.
Defined.

(** X7. [get] and [poll] agree on the first answer. When its content is not
    empty, [get] returns the text that [poll] yields first, or both raise
    the same decoding error and [poll] yields nothing. When it is empty,
    [get] returns the empty string, while [poll] yields nothing for it and
    goes on with the next token. *)
Theorem get_agrees_with_poll self interval srv token resp rest :
  start_configuration_session srv = inr token →
  get_latest_configuration srv = inr resp :: rest →
  (Configuration resp ≠ EmptyString →
     match get self (inr token) (inr resp) with
     | inr text => head (yields (poll self interval srv)) = Some text
     | inl exc =>
         yields (poll self interval srv) = []
         ∧ raised (poll self interval srv) = Some exc
     end)
  ∧ (Configuration resp = EmptyString →
     get self (inr token) (inr resp) = inr EmptyString
     ∧ yields (poll self interval srv)
       = yields (poll_loop interval (NextPollConfigurationToken resp) rest)).
Proof.
  intros Hs Ha. rewrite (yields_poll _ _ _ _ Hs), (raised_poll _ _ _ _ Hs), Ha.
  rewrite yields_poll_loop_cons, raised_poll_loop_cons.
  unfold get. cbn [mbind result_bind poll_iteration]. split.
  - intros Hne. rewrite bool_decide_true by done.
    by destruct (bytes_decode (Configuration resp)).
  - intros ->. by rewrite bool_decide_false by (by intros []).
Qed.

Lemma get_agrees_with_poll_witness :
  head (yields (poll backend_1 60 script_changes)) = Some "v1".
Proof.
  refine (proj1 (get_agrees_with_poll backend_1 60 script_changes "t0"
                   {| NextPollConfigurationToken := "t1";
                      NextPollIntervalInSeconds := 60;
                      Configuration := "v1" |} _ eq_refl eq_refl) _).
  discriminate.
Defined.

End PollExtras.

(** * Further properties of name resolution *)

Module ResolveExtras.
Import AppConfig AppConfigMore.

Section WithRepr.
Variable repr : string → string.

(** A search that finds something: the first id, and a warning when there
    are others. *)
Lemma get_id_from_name_cons name operation_name client kwargs id others :
  client operation_name kwargs (search_expression name) = inr (id :: others) →
  _get_id_from_name repr name operation_name client kwargs
  = (match others with
     | [] => []
     | _ => [{| message := multiple_found_message repr operation_name name
                             (id :: others);
                category := "RuntimeWarning" |}]
     end, inr id).
Proof.
  intros Hs. unfold _get_id_from_name. rewrite Hs.
  by destruct others.
Qed.

Lemma get_id_from_name_fails name operation_name client kwargs :
  (∀ exc, client operation_name kwargs (search_expression name) = inl exc →
          _get_id_from_name repr name operation_name client kwargs
          = ([], inl exc))
  ∧ (client operation_name kwargs (search_expression name) = inr [] →
     _get_id_from_name repr name operation_name client kwargs
     = ([], inl (ValueError (not_found_message operation_name name)))).
Proof.
  unfold _get_id_from_name. split; [intros exc Hs|intros Hs]; by rewrite Hs.
Qed.

(** X8. When each of the three searches of [new] finds something, the
    profile and the environment being looked up within the application that
    was found, [new] returns the backend of the first identifier of each
    search, with one [RuntimeWarning] for every search that found more
    than one. *)
Theorem new_takes_first_ids app conf env session a others_a c others_c
    e others_e :
  appconfig session list_applications [] (search_expression app)
  = inr (a :: others_a) →
  appconfig session list_configuration_profiles [("ApplicationId", a)]
    (search_expression conf) = inr (c :: others_c) →
  appconfig session list_environments [("ApplicationId", a)]
    (search_expression env) = inr (e :: others_e) →
  ∃ ws,
    new repr app conf env session
    = (ws, inr {| application_id := a;
                  configuration_profile_id := c;
                  environment_id := e |})
    ∧ length ws
      = length (filter (λ l, l ≠ []) [others_a; others_c; others_e])
    ∧ Forall (λ w, category w = "RuntimeWarning") ws.
Proof.
  intros Ha Hc He.
  unfold new, get_application_id, get_configuration_profile_id,
    get_environment_id.
  unfold mbind at 1, W_bind at 1.
  rewrite (get_id_from_name_cons _ _ _ _ _ _ Ha).
  unfold mbind at 1, W_bind at 1.
  rewrite (get_id_from_name_cons _ _ _ _ _ _ Hc).
  unfold mbind at 1, W_bind at 1.
  rewrite (get_id_from_name_cons _ _ _ _ _ _ He).
  unfold mret, W_ret. eexists. split; [reflexivity|].
  destruct others_a, others_c, others_e; cbn; repeat constructor.
Qed.

(** X9. [new] stops at the first search that fails. An error of the client
    in the search for the application is raised as it is, and an empty
    result raises the [ValueError] of the application, both without a
    warning; the environment is not looked up when no profile is found, and
    the [ValueError] names the search that found nothing. *)
Theorem new_stops_at_first_failure app conf env session :
  (∀ exc,
     appconfig session list_applications [] (search_expression app) = inl exc →
     new repr app conf env session = ([], inl exc))
  ∧ (appconfig session list_applications [] (search_expression app) = inr [] →
     new repr app conf env session
     = ([], inl (ValueError (not_found_message list_applications app))))
  ∧ (∀ a others_a,
       appconfig session list_applications [] (search_expression app)
       = inr (a :: others_a) →
       (appconfig session list_configuration_profiles [("ApplicationId", a)]
          (search_expression conf) = inr [] →
        (new repr app conf env session).2
        = inl (ValueError
                 (not_found_message list_configuration_profiles conf)))
       ∧ (∀ c others_c,
            appconfig session list_configuration_profiles
              [("ApplicationId", a)] (search_expression conf)
            = inr (c :: others_c) →
            appconfig session list_environments [("ApplicationId", a)]
              (search_expression env) = inr [] →
            (new repr app conf env session).2
            = inl (ValueError (not_found_message list_environments env)))).
Proof.
  unfold new, get_application_id, get_configuration_profile_id,
    get_environment_id.
  split; [|split].
  - intros exc Ha. unfold mbind at 1, W_bind at 1.
    by rewrite (proj1 (get_id_from_name_fails _ _ _ _) exc Ha).
  - intros Ha. unfold mbind at 1, W_bind at 1.
    by rewrite (proj2 (get_id_from_name_fails _ _ _ _) Ha).
  - intros a others_a Ha. unfold mbind at 1, W_bind at 1.
    rewrite (get_id_from_name_cons _ _ _ _ _ _ Ha). split.
    + intros Hc. unfold mbind at 1, W_bind at 1.
      by rewrite (proj2 (get_id_from_name_fails _ _ _ _) Hc).
    + intros c others_c Hc He. unfold mbind at 1, W_bind at 1.
      rewrite (get_id_from_name_cons _ _ _ _ _ _ Hc).
      unfold mbind at 1, W_bind at 1.
      by rewrite (proj2 (get_id_from_name_fails _ _ _ _) He).
Qed.

End WithRepr.

Lemma new_takes_first_ids_witness :
  ∃ ws,
    new repr_plain "app-name" "conf-name" "env-name" mock_session_with_2_ids
    = (ws, inr {| application_id := "id-1";
                  configuration_profile_id := "id-1";
                  environment_id := "id-1" |})
    ∧ length ws = 3
    ∧ Forall (λ w, category w = "RuntimeWarning") ws.
Proof.
  exact (new_takes_first_ids repr_plain "app-name" "conf-name" "env-name"
           mock_session_with_2_ids "id-1" ["id-2"] "id-1" ["id-2"]
           "id-1" ["id-2"] eq_refl eq_refl eq_refl).
Defined.

Lemma new_stops_at_first_failure_witness :
  (new repr_plain "app-name" "conf-name" "env-name"
     session_without_environment).2
  = inl (ValueError (not_found_message list_environments "env-name")).
Proof.
  destruct (new_stops_at_first_failure repr_plain "app-name" "conf-name"
              "env-name" session_without_environment) as (_ & _ & H).
  destruct (H "app-1" ["app-2"] eq_refl) as [_ Henv].
  exact (Henv "conf-1" [] eq_refl eq_refl).
Defined.

End ResolveExtras.

(** * Further properties of the controllers and the commands *)

Module CliExtras.
Import Os OsFacts Cli CliMore Examples MoreExamples CliFacts.

Section WithCollaborators.
Context `{Collaborators}.


Lemma source_lookups_inr objs k fmt b :
  source_lookups (VDict objs) k = inr (fmt, b) →
  ∃ entry source,
    assoc k objs = Some (VDict entry)
    ∧ assoc "source" entry = Some (VDict source)
    ∧ fmt = default (VStr "raw") (assoc "format" source).
Proof.
  unfold source_lookups. cbn [getitem].
  destruct (assoc k objs) as [[| | | | |entry]|] eqn:He; try done.
  cbn [mbind result_bind getitem].
  destruct (assoc "source" entry) as [[| | | | |source]|] eqn:Hs; try done.
  cbn [mbind result_bind getitem dict_get].
  destruct (assoc "backend" source) as [name|]; [|done].
  cbn [mbind result_bind].
  destruct (get_backend name) as [|cls]; [done|].
  cbn [mbind result_bind].
  destruct (if truthy _ then _ else _) as [|b']; [done|].
  cbn [mbind result_bind mret]. intros [= <- <-]. by exists entry, source.
Qed.

Lemma dest_lookups_inr objs k r :
  dest_lookups (VDict objs) k = inr r →
  ∃ entry dest_items p fmt,
    assoc k objs = Some (VDict entry)
    ∧ assoc "dest" entry = Some (VDict dest_items)
    ∧ assoc "path" dest_items = Some (VStr p)
    ∧ assoc "format" dest_items = Some (VStr fmt)
    ∧ r = if bool_decide (fmt ∈ DUMPERS)
          then inl {| path := Path_of_str p; format := FormatT fmt |}
          else inr (Path_of_str p, Path_of_str fmt).
Proof.
  unfold dest_lookups. cbn [getitem].
  destruct (assoc k objs) as [[| | | | |entry]|] eqn:He; try done.
  cbn [mbind result_bind getitem].
  destruct (assoc "dest" entry) as [[| | | | |dest_items]|] eqn:Hd; try done.
  cbn [mbind result_bind getitem].
  destruct (assoc "path" dest_items) as [[| | |p| |]|] eqn:Hp; try done.
  cbn [mbind result_bind Path_of_value].
  destruct (assoc "format" dest_items) as [[| | |fmt| |]|] eqn:Hf; try done.
  cbn [mbind result_bind]. intros Hr. exists entry, dest_items, p, fmt.
  do 4 (split; [done|]). by destruct (bool_decide _); injection Hr as <-.
Qed.

(** X11. A controller that was constructed reflects the settings: it keeps
    the key and the settings, the entry of the key has a [source] and a
    [dest] mapping, the source format is the [format] of the source or
    [raw] when there is none, the destination path is the [path] string of
    [dest], and the destination format is either the [format] string, which
    is then a key of the serializer table, or the template compiled from
    the file that string names, which is then not such a key. *)
Theorem init_reads_settings s k w w' ctrl :
  __init__ (Some s) k w = (w', inr ctrl) →
  key ctrl = k ∧ settings ctrl = s
  ∧ ∃ entry source dest_items p fmt,
      assoc k (OBJECTS s) = Some (VDict entry)
      ∧ assoc "source" entry = Some (VDict source)
      ∧ src_format ctrl = default (VStr "raw") (assoc "format" source)
      ∧ assoc "dest" entry = Some (VDict dest_items)
      ∧ assoc "path" dest_items = Some (VStr p)
      ∧ path (dest ctrl) = Path_of_str p
      ∧ assoc "format" dest_items = Some (VStr fmt)
      ∧ match format (dest ctrl) with
        | FormatT tag => tag = fmt ∧ (fmt ∈ DUMPERS)
        | JinjaTemplate t =>
            (fmt ∉ DUMPERS)
            ∧ ∃ text,
                get_source (parent (Path_of_str fmt)) (name (Path_of_str fmt))
                  (fs w) = inr text
                ∧ jinja_compile text = inr t
        end.
Proof.
  rewrite init_eq.
  destruct (source_lookups _ _) as [[]|[src b]] eqn:Hs; try done.
  apply source_lookups_inr in Hs as (entry & source & He & Hsrc & ->).
  rewrite get_dest_eq.
  destruct (dest_lookups _ _) as [[]|r] eqn:Hd; try done.
  apply dest_lookups_inr in Hd
    as (entry' & dest_items & p & fmt & He' & Hdest & Hp & Hf & ->).
  assert (entry' = entry) as -> by congruence.
  case_bool_decide as Hin.
  - intros [= <- <-]. cbn. split; [done|]. split; [done|].
    by exists entry, source, dest_items, p, fmt.
  - destruct (get_source _ _ (fs w)) as [|text] eqn:Hg; [done|].
    cbn [mbind result_bind].
    destruct (jinja_compile text) as [|t] eqn:Hc; [done|].
    intros [= <- <-]. cbn. split; [done|]. split; [done|].
    exists entry, source, dest_items, p, fmt. repeat split; try done.
    by exists text.
Qed.

(** X12. Which factory builds the backend. When [new] is absent or falsy,
    an empty mapping included, the constructor is called with the [kwargs]
    of [init], and a missing [init] is reported as a missing key. When
    [new] is a non-empty mapping, the factory [new] is called with its
    [kwargs], whether or not there is an [init], and a missing [kwargs] is
    reported as a missing key. *)
Theorem init_factory_choice s k entry source name cls w :
  assoc k (OBJECTS s) = Some (VDict entry) →
  assoc "source" entry = Some (VDict source) →
  assoc "backend" source = Some name →
  get_backend name = inr cls →
  let objects := VDict (OBJECTS s) in
  let fmt := default (VStr "raw") (assoc "format" source) in
  (truthy (default VNone (assoc "new" source)) = false →
     (assoc "init" source = None →
        __init__ (Some s) k w = (reported w "init" objects, inl (Exit 1)))
     ∧ ∀ init kwargs,
         assoc "init" source = Some (VDict init) →
         assoc "kwargs" init = Some kwargs →
         source_lookups objects k
         = (b ← class_call cls kwargs; mret (fmt, b)))
  ∧ ∀ new,
      assoc "new" source = Some (VDict new) →
      new ≠ [] →
      (assoc "kwargs" new = None →
         __init__ (Some s) k w = (reported w "kwargs" objects, inl (Exit 1)))
      ∧ ∀ kwargs,
          assoc "kwargs" new = Some kwargs →
          source_lookups objects k
          = (b ← class_new cls kwargs; mret (fmt, b)).
Proof.
  intros He Hsrc Hb Hcls objects fmt. subst objects fmt. split.
  - intros Hnew. split.
    + intros Hi. refine (init_source_fails _ _ _ (KeyError "init") _).
      unfold source_lookups. run_lookups. rewrite Hcls.
      cbn [mbind result_bind dict_get]. rewrite Hnew. by run_lookups.
    + intros init kwargs Hi Hk. unfold source_lookups. run_lookups.
      rewrite Hcls. cbn [mbind result_bind dict_get]. rewrite Hnew.
      by run_lookups.
  - intros new Hnew Hne.
    assert (truthy (default VNone (assoc "new" source)) = true) as Ht.
    { rewrite Hnew. cbn. by destruct new. }
    split.
    + intros Hk. refine (init_source_fails _ _ _ (KeyError "kwargs") _).
      unfold source_lookups. run_lookups. rewrite Hcls.
      cbn [mbind result_bind dict_get]. rewrite Ht. by run_lookups.
    + intros kwargs Hk. unfold source_lookups. run_lookups.
      rewrite Hcls. cbn [mbind result_bind dict_get]. rewrite Ht.
      by run_lookups.
Qed.

(** *** What the controllers' actions touch *)

(** The body of the two loops and of the one-shot actions: render, then
    hand the text over. *)
Lemma render_then_act self (action : string → M unit) content w :
  (data ← lift (loads (src_format self) content); _do self action data) w =
  match render_item self content with
  | inl exc => (w, inl exc)
  | inr text => action text w
  end.
Proof.
  unfold render_item, _do, is_template, lift, mbind, M_bind, result_bind.
  destruct (loads (src_format self) content) as [|data]; [done|].
  destruct (format (dest self)) as [fmt|t].
  - by destruct (dumps fmt data).
  - by destruct (jinja_render t data).
Qed.

Lemma async_for_invariant (R : world → world → Prop) items ending body :
  (∀ w, R w w) →
  (∀ w1 w2 w3, R w1 w2 → R w2 w3 → R w1 w3) →
  (∀ content w w' r, body content w = (w', r) → R w w') →
  ∀ w w' r, async_for items ending body w = (w', r) → R w w'.
Proof.
  intros Hrefl Htrans Hbody.
  induction items as [|content items IH]; intros w w' r; cbn [async_for].
  - destruct ending; intros [= <- <-]; apply Hrefl.
  - unfold mbind, M_bind.
    destruct (body content w) as [w1 [exc|[]]] eqn:Hb.
    + intros [= <- <-]. by eapply Hbody.
    + intros Ha. eapply Htrans; [by eapply Hbody|by eapply IH].
Qed.

Lemma write_text_only_at p content w w' r :
  write_text p content w = (w', r) → only_at p w w'.
Proof.
  unfold write_text, fs_write_text, only_at.
  repeat case_match; intros; simplify_eq/=; split; try done.
  all: intros q Hq; by apply lookup_insert_ne.
Qed.

Lemma print_only_prints s w w' r :
  print s w = (w', r) → only_prints w w'.
Proof. intros [= <- <-]. split; [done|]. by eexists. Qed.

Lemma only_at_refl p w : only_at p w w.
Proof. by split. Qed.

Lemma only_at_trans p w1 w2 w3 :
  only_at p w1 w2 → only_at p w2 w3 → only_at p w1 w3.
Proof.
  intros [Ho1 Hf1] [Ho2 Hf2]. split; [congruence|].
  intros q Hq. by rewrite Hf2, Hf1.
Qed.

Lemma only_prints_refl w : only_prints w w.
Proof. split; [done|]. exists []. by rewrite app_nil_r. Qed.

Lemma only_prints_trans w1 w2 w3 :
  only_prints w1 w2 → only_prints w2 w3 → only_prints w1 w3.
Proof.
  intros [Hf1 [o1 Ho1]] [Hf2 [o2 Ho2]]. split; [congruence|].
  exists (o1 ++ o2). by rewrite Ho2, Ho1, app_assoc.
Qed.

Lemma one_shot_eq self (action : string → M unit) w :
  (raw ← lift (backend_get (backend self));
   data ← lift (loads (src_format self) raw);
   _do self action data) w =
  match backend_get (backend self) with
  | inl exc => (w, inl exc)
  | inr raw =>
      match render_item self raw with
      | inl exc => (w, inl exc)
      | inr text => action text w
      end
  end.
Proof.
  unfold mbind at 1, M_bind at 1, lift at 1.
  destruct (backend_get (backend self)) as [|raw]; [done|].
  apply render_then_act.
Qed.

Lemma writes_only_at self w w' r :
  write self w = (w', r) ∨ awrite self w = (w', r) →
  only_at (path (dest self)) w w'.
Proof.
  intros [Hw|Hw].
  - unfold write in Hw. rewrite one_shot_eq in Hw.
    repeat case_match; simplify_eq; try apply only_at_refl.
    by eapply write_text_only_at.
  - revert Hw. unfold awrite.
    apply (async_for_invariant (only_at (path (dest self))));
      [apply only_at_refl|apply only_at_trans|].
    intros content w1 w2 r'. rewrite render_then_act.
    case_match; [intros [= <- <-]; apply only_at_refl|].
    apply write_text_only_at.
Qed.

Lemma writes_keep_dirs self w w' r :
  write self w = (w', r) ∨ awrite self w = (w', r) →
  keeps_dirs (fs w) (fs w').
Proof.
  intros [Hw|Hw].
  - unfold write in Hw. rewrite one_shot_eq in Hw.
    repeat case_match; simplify_eq; try apply keeps_dirs_refl.
    by eapply write_text_keeps.
  - revert Hw. unfold awrite.
    apply (async_for_invariant (λ w1 w2, keeps_dirs (fs w1) (fs w2)));
      [intros; apply keeps_dirs_refl
      |intros ??? H12 H23; by eapply keeps_dirs_trans|].
    intros content w1 w2 r'. rewrite render_then_act.
    case_match; [intros [= <- <-]; apply keeps_dirs_refl|].
    apply write_text_keeps.
Qed.

(** X13. What the actions of a controller leave alone: [write] and
    [awrite] print nothing and remove no directory; [get] and [aget] do not
    change the file system, and only add to what was printed. *)
Theorem actions_touch_only_their_target self w w' r :
  (write self w = (w', r) ∨ awrite self w = (w', r) →
     stdout w' = stdout w ∧ keeps_dirs (fs w) (fs w'))
  ∧ (get self w = (w', r) ∨ aget self w = (w', r) →
     fs w' = fs w ∧ ∃ out, stdout w' = stdout w ++ out).
Proof.
  split.
  - intros Hw. split; [by eapply writes_only_at|by eapply writes_keep_dirs].
  - intros [Hg|Hg].
    + unfold get in Hg. rewrite one_shot_eq in Hg.
      repeat case_match; simplify_eq; try apply only_prints_refl.
      by eapply print_only_prints.
    + revert Hg. unfold aget.
      apply (async_for_invariant only_prints);
        [apply only_prints_refl|apply only_prints_trans|].
      intros content w1 w2 r'. rewrite render_then_act.
      case_match; [intros [= <- <-]; apply only_prints_refl|].
      apply print_only_prints.
Qed.

Lemma renders_cons self content items :
  renders self (content :: items) =
  match render_item self content with
  | inl exc => ([], Some exc)
  | inr text => (text :: (renders self items).1, (renders self items).2)
  end.
Proof.
  cbn [renders]. destruct (render_item self content); [done|].
  by destruct (renders self items).
Qed.




(** *** The commands *)

Lemma for_each_init_fails s pre k post w w' exc :
  (∀ k', k' ∈ pre → ∃ c, (__init__ (Some s) k' w).2 = inr c) →
  __init__ (Some s) k w = (w', inl exc) →
  for_each (__init__ (Some s)) (pre ++ k :: post) w = (w', inl exc).
Proof.
  intros Hpre Hk. induction pre as [|k0 pre IH]; cbn [app for_each].
  - unfold mbind at 1, M_bind at 1. by rewrite Hk.
  - destruct (Hpre k0) as [c Hc]; [by left|].
    destruct (__init__ (Some s) k0 w) as [w0 r] eqn:H0. cbn in Hc. subst r.
    pose proof (init_inr_world _ _ _ _ _ H0) as ->.
    unfold mbind at 1, M_bind at 1. rewrite H0.
    unfold mbind at 1, M_bind at 1. rewrite IH; [done|].
    intros k' Hin. apply Hpre. by right.
Qed.

(** X16. The set-up of the commands is all or nothing: when the
    construction of the controller of a key fails, [apply] on that key, and
    [monitor] when the keys before it are fine, raise that exception with
    the file system unchanged: no directory was made and no controller was
    started. *)
Theorem setup_is_all_or_nothing s pre k post w w' exc :
  (OBJECTS s).*1 = pre ++ k :: post →
  (∀ k', k' ∈ pre → ∃ c, (__init__ (Some s) k' w).2 = inr c) →
  __init__ (Some s) k w = (w', inl exc) →
  fs w' = fs w
  ∧ (∀ poll, apply (Some s) k poll w = (w', inl exc))
  ∧ (∀ schedule, monitor (Some s) schedule w = (w', Raised exc [])).
Proof.
  intros Hkeys Hpre Hk. split; [by eapply init_fs|]. split.
  - intros poll. unfold apply, mbind at 1, M_bind at 1. by rewrite Hk.
  - intros schedule. unfold monitor, monitor_setup.
    unfold mbind at 1, M_bind at 1.
    by rewrite Hkeys, (for_each_init_fails _ _ _ _ _ _ _ Hpre Hk).
Qed.

(** X17. With a single object in the settings, whose controller can be
    constructed, [monitor] does what [apply] with polling does on that
    object, once its task was resumed for every item of the stream and for
    its end: the same final world, and the same exception when there is
    one. *)
Theorem monitor_one_object_is_apply_poll s k v w wc ctrl :
  OBJECTS s = [(k, v)] →
  __init__ (Some s) k w = (wc, inr ctrl) →
  let run :=
    monitor (Some s)
      (replicate (S (length (backend_poll (backend ctrl)).1)) 0) w in
  match apply (Some s) k true w with
  | (w', inr _) => run = (w', Returned)
  | (w', inl exc) => run.1 = w' ∧ raised_by run.2 = Some exc
  end.
Proof.
  intros Hobj Hinit. cbn zeta.
  unfold monitor, monitor_setup, apply. rewrite Hobj.
  cbn [fmap list_fmap fst for_each].
  unfold mbind, M_bind, mret, M_ret. rewrite Hinit.
  cbn [for_each]. unfold mbind, M_bind, mret, M_ret.
  destruct (mkdir (parent (path (dest ctrl))) wc) as [wm [exc|[]]];
    [done|].
  cbn [fmap list_fmap]. unfold awrite, create_task.
  apply gather_alone.
Qed.

(** *** The tasks of [monitor] *)

Lemma renders_snoc self used content text :
  (renders self used).2 = None →
  render_item self content = inr text →
  renders self (used ++ [content]) = ((renders self used).1 ++ [text], None).
Proof.
  intros Hu Hc. induction used as [|c used IH]; cbn [app].
  - rewrite renders_cons, Hc. done.
  - rewrite renders_cons in Hu. rewrite !renders_cons.
    destruct (render_item self c); [done|]. cbn in Hu |- *. by rewrite IH.
Qed.

Lemma write_text_inr p text w w' u :
  write_text p text w = (w', inr u) → fs w' = <[p := File text]> (fs w).
Proof.
  unfold write_text, fs_write_text.
  repeat case_match; intros; by simplify_eq/=.
Qed.

Lemma write_text_inl p text w w' exc :
  write_text p text w = (w', inl exc) → w' = w.
Proof.
  unfold write_text. destruct (fs_write_text _ _ _); intros; by simplify_eq.
Qed.

Lemma resume_eq t w :
  resume t w =
  match task_items t with
  | content :: items' =>
      match render_item (task_ctrl t) content with
      | inl exc => (w, inl exc)
      | inr text =>
          match write_text (path (dest (task_ctrl t))) text w with
          | (w', inl exc) => (w', inl exc)
          | (w', inr _) =>
              (w', inr {| task_ctrl := task_ctrl t; task_items := items';
                          task_end := task_end t; task_state := Pending |})
          end
      end
  | [] =>
      match task_end t with
      | Some exc => (w, inl exc)
      | None => (w, inr {| task_ctrl := task_ctrl t; task_items := [];
                           task_end := None; task_state := Finished |})
      end
  end.
Proof.
  unfold resume. destruct (task_items t) as [|content items'].
  - by destruct (task_end t).
  - unfold render_item, _do, is_template, lift.
    unfold mbind, M_bind, result_bind, mret, M_ret.
    destruct (loads (src_format (task_ctrl t)) content) as [|data]; [done|].
    destruct (format (dest (task_ctrl t))) as [fmt|tpl].
    + destruct (dumps fmt data) as [|text]; [done|].
      by destruct (write_text _ text w) as [w' [|[]]].
    + destruct (jinja_render tpl data) as [|text]; [done|].
      by destruct (write_text _ text w) as [w' [|[]]].
Qed.

Lemma resume_inl t w w' exc : resume t w = (w', inl exc) → w' = w.
Proof.
  rewrite resume_eq. repeat case_match; intros; simplify_eq; try done.
  by eapply write_text_inl.
Qed.

Lemma resume_inr_state t w w' t' :
  resume t w = (w', inr t') →
  task_state t' = Pending ∨ task_state t' = Finished.
Proof.
  rewrite resume_eq. repeat case_match; intros; simplify_eq; cbn; auto.
Qed.

(** *** Running a command again *)

Lemma rendered_eq self :
  rendered self =
  match backend_get (backend self) with
  | inl exc => inl exc
  | inr raw => render_item self raw
  end.
Proof.
  unfold rendered, render_item.
  by destruct (backend_get (backend self)).
Qed.

Lemma write_text_inr_inv p text w w' u :
  write_text p text w = (w', inr u) →
  node_at (fs w) p ≠ Some Dir
  ∧ is_dir (fs w) (parent p) = true
  ∧ w' = {| fs := <[p := File text]> (fs w); stdout := stdout w |}.
Proof.
  unfold write_text, fs_write_text, is_dir.
  destruct (node_at (fs w) p) as [[]|];
    destruct (node_at (fs w) (parent p)) as [[]|];
    intros; by simplify_eq.
Qed.

(** X21. Writing the same rendering again changes nothing: when [write]
    has returned, a [write] to the same destination by a controller whose
    backend gives the same rendering, as in a second run of [apply] while
    the remote value is what it was, returns and leaves the world as it
    is. *)
Theorem write_again_changes_nothing self self' w w' :
  write self w = (w', inr tt) →
  path (dest self') = path (dest self) →
  rendered self' = rendered self →
  write self' w' = (w', inr tt).
Proof.
  intros Hw Hp Hr. rewrite !rendered_eq in Hr.
  unfold write in *. rewrite one_shot_eq in Hw. rewrite one_shot_eq.
  destruct (backend_get (backend self)) as [|raw]; [done|].
  destruct (render_item self raw) as [|text] eqn:Ht; [done|].
  apply write_text_inr_inv in Hw as (Hn & Hd & ->).
  assert (parts (path (dest self)) ≠ []) as Hparts.
  { intros Hnil. apply Hn. unfold node_at. by rewrite Hnil. }
  destruct (backend_get (backend self')) as [|raw']; [done|].
  rewrite Hr, Hp. rewrite write_text_replaces; cbn [fs stdout].
  - by rewrite insert_insert_eq.
  - unfold is_dir in *. rewrite node_at_insert_ne; [done|].
    intros Heq. by apply (parent_ne (path (dest self))).
  - by rewrite node_at_insert_eq.
Qed.

End WithCollaborators.

Section WithPlatform.
Context `{Collaborators} `{Platform}.

(** *** What the tasks have done, at every moment *)

Lemma in_progress_start controllers w :
  in_progress controllers w w (create_task <$> controllers).
Proof.
  split.
  - rewrite <- list_fmap_compose. by rewrite <- (list_fmap_id controllers) at 2.
  - intros i t (ctrl & -> & _)%list_lookup_fmap_Some. exists [].
    unfold consumed, after_writes. cbn. done.
Qed.

Lemma in_progress_step controllers w0 w w' tasks i t t' :
  in_progress controllers w0 w tasks →
  tasks !! i = Some t →
  resume t w = (w', inr t') →
  in_progress controllers w0 w' (<[i := t']> tasks).
Proof.
  intros [Hctrls Hall] Hi. rewrite resume_eq. intros Hres.
  assert (task_ctrl t' = task_ctrl t) as Hctrl.
  { repeat case_match; by simplify_eq. }
  assert (controllers !! i = Some (task_ctrl t)) as Hci.
  { rewrite <- Hctrls. by apply list_lookup_fmap_Some_2. }
  split.
  - rewrite list_fmap_insert, Hctrl, Hctrls. by apply list_insert_id.
  - intros j tj Hj. destruct (decide (j = i)) as [->|Hne].
    + rewrite list_lookup_insert_eq in Hj by by eapply lookup_lt_Some.
      injection Hj as ->. destruct (Hall i t Hi) as (used & Hused & Hfs).
      destruct Hused as (Hstream & Hend & Hr & Hdone).
      rewrite Hctrl. destruct (task_items t) as [|content items'] eqn:Hitems.
      * destruct (task_end t) eqn:Hte; [done|]. injection Hres as <- <-.
        exists used. split; [|done]. unfold consumed. by cbn.
      * destruct (render_item (task_ctrl t) content) as [|text] eqn:Hc;
          [done|].
        destruct (write_text _ text w) as [w1 [|[]]] eqn:Hw; [done|].
        injection Hres as <- <-. exists (used ++ [content]).
        split.
        -- unfold consumed. cbn. rewrite <- app_assoc.
           by rewrite (renders_snoc _ _ _ _ Hr Hc).
        -- intros _. rewrite (renders_snoc _ _ _ _ Hr Hc).
           unfold after_writes. cbn [fst]. rewrite last_snoc.
           rewrite (write_text_inr _ _ _ _ _ Hw). apply lookup_insert_eq.
    + rewrite list_lookup_insert_ne in Hj by done.
      destruct (Hall j tj Hj) as (used & Hused & Hfs).
      exists used. split; [done|]. intros Halone.
      rewrite <- (Hfs Halone).
      assert (controllers !! j = Some (task_ctrl tj)) as Hcj.
      { rewrite <- Hctrls. by apply list_lookup_fmap_Some_2. }
      assert (path (dest (task_ctrl t)) ≠ path (dest (task_ctrl tj))) as Hp.
      { intros Heq.
        apply (Halone i (task_ctrl tj) (task_ctrl t)); [by intros ->|done..|].
        rewrite Heq. apply same_file_refl. }
      repeat case_match; simplify_eq; try done.
      match goal with Hw : write_text _ _ _ = _ |- _ =>
        rewrite (write_text_inr _ _ _ _ _ Hw) end.
      by apply lookup_insert_ne.
Qed.

Lemma in_progress_states controllers w0 w tasks (f : task → task) :
  (∀ t, task_ctrl (f t) = task_ctrl t) →
  (∀ t, task_items (f t) = task_items t) →
  (∀ t, task_end (f t) = task_end t) →
  (∀ t, task_state (f t) = Finished → task_state t = Finished) →
  in_progress controllers w0 w tasks →
  ∀ tasks',
    (∀ i, tasks' !! i = tasks !! i ∨ tasks' !! i = f <$> tasks !! i) →
    in_progress controllers w0 w tasks'.
Proof.
  intros Hc Hi He Hs [Hctrls Hall] tasks' Hsame.
  assert (∀ i t', tasks' !! i = Some t' →
            ∃ t, tasks !! i = Some t ∧ (t' = t ∨ t' = f t)) as Hinv.
  { intros i t' Ht'. destruct (Hsame i) as [Heq|Heq]; rewrite Ht' in Heq.
    - eauto.
    - destruct (tasks !! i) as [t|]; [|done]. injection Heq as ->. eauto. }
  split.
  - rewrite <- Hctrls. apply list_eq. intros i. rewrite !list_lookup_fmap.
    destruct (Hsame i) as [->| ->]; [done|].
    destruct (tasks !! i) as [t|]; [|done]. cbn. by rewrite Hc.
  - intros i t' Ht'. destruct (Hinv i t' Ht') as (t & Ht & [->| ->]);
      [by apply Hall|].
    destruct (Hall i t Ht) as (used & (Hstream & Hend & Hr & Hdone) & Hfs).
    exists used. rewrite Hc. split; [|done].
    unfold consumed. rewrite Hc, Hi, He. do 3 (split; [done|]).
    intros Hf%Hs. by apply Hdone.
Qed.

Lemma in_progress_fail controllers w0 w tasks i t exc :
  in_progress controllers w0 w tasks →
  tasks !! i = Some t →
  in_progress controllers w0 w (<[i := set_state t (Failed exc)]> tasks).
Proof.
  intros Hin Hi.
  apply (in_progress_states _ _ _ tasks (λ t, set_state t (Failed exc)));
    try done.
  intros j. destruct (decide (i = j)) as [->|Hne].
  - right. rewrite list_lookup_insert_eq by by eapply lookup_lt_Some.
    by rewrite Hi.
  - left. by rewrite list_lookup_insert_ne.
Qed.

Lemma in_progress_cancel controllers w0 w tasks :
  in_progress controllers w0 w tasks →
  in_progress controllers w0 w (cancel <$> tasks).
Proof.
  intros Hin. apply (in_progress_states _ _ _ tasks cancel); try done.
  - intros t. unfold cancel. by destruct (task_state t).
  - intros t. unfold cancel. by destruct (task_state t).
  - intros t. unfold cancel. by destruct (task_state t).
  - intros t. unfold cancel.
    destruct (task_state t) eqn:Hs; cbn; rewrite ?Hs; congruence.
  - intros i. right. apply list_lookup_fmap.
Qed.

Lemma wind_down_in_progress controllers w0 late tasks w w' tasks' :
  in_progress controllers w0 w tasks →
  wind_down late tasks w = (w', tasks') →
  in_progress controllers w0 w' tasks'.
Proof.
  revert tasks w. induction late as [|i late IH]; intros tasks w Hin;
    cbn [wind_down].
  - intros [= <- <-]. by apply in_progress_cancel.
  - destruct (tasks !! i) as [t|] eqn:Hi; [|by apply IH].
    destruct (task_done t); [by apply IH|].
    destruct (resume t w) as [w1 [exc|t']] eqn:Hr.
    + apply resume_inl in Hr as ->. apply IH. by apply in_progress_fail.
    + apply IH. by eapply in_progress_step.
Qed.

Lemma gather_in_progress controllers w0 schedule tasks w w' res :
  in_progress controllers w0 w tasks →
  Forall (λ t, task_state t = Pending ∨ task_state t = Finished) tasks →
  gather schedule tasks w = (w', res) →
  ∃ tasks',
    in_progress controllers w0 w' tasks'
    ∧ match res with
      | Returned => Forall (λ t, task_state t = Finished) tasks'
      | Raised _ l | Running l => l = tasks'
      end.
Proof.
  assert (∀ ts,
            Forall (λ t, task_state t = Pending ∨ task_state t = Finished)
              ts →
            forallb task_done ts = true →
            Forall (λ t, task_state t = Finished) ts) as Hfin.
  { intros ts Hunf Hd. rewrite forallb_forall in Hd.
    apply Forall_forall. intros t Hin.
    pose proof (Hd t (proj1 (list_elem_of_In _ _) Hin)) as Hdt.
    destruct (proj1 (Forall_forall _ _) Hunf t Hin) as [Hp|Hf]; [|done].
    unfold task_done in Hdt. by rewrite Hp in Hdt. }
  revert tasks w. induction schedule as [|i schedule IH];
    intros tasks w Hin Hunf; cbn [gather].
  - destruct (forallb task_done tasks) eqn:Hd; intros [= <- <-]; eauto.
  - destruct (forallb task_done tasks) eqn:Hd; [intros [= <- <-]; eauto|].
    destruct (tasks !! i) as [t|] eqn:Hi; [|by apply IH].
    destruct (task_done t); [by apply IH|].
    destruct (resume t w) as [w1 [exc|t']] eqn:Hr.
    + destruct (wind_down _ _ w1) as [w2 tasks2] eqn:Hw.
      intros [= <- <-]. apply resume_inl in Hr as ->.
      exists tasks2. split; [|done].
      eapply wind_down_in_progress; [|done]. by apply in_progress_fail.
    + apply IH; [by eapply in_progress_step|].
      apply Forall_insert; [done|]. by eapply resume_inr_state.
Qed.

Lemma monitor_in_progress settings schedule w w0 controllers w' res :
  monitor_setup settings w = (w0, inr controllers) →
  monitor settings schedule w = (w', res) →
  ∃ tasks',
    in_progress controllers w0 w' tasks'
    ∧ match res with
      | Returned => Forall (λ t, task_state t = Finished) tasks'
      | Raised _ l | Running l => l = tasks'
      end.
Proof.
  intros Hsetup Hg. unfold monitor in Hg. rewrite Hsetup in Hg.
  eapply gather_in_progress; [apply in_progress_start| |done].
  apply Forall_fmap, Forall_true. intros ctrl. by left.
Qed.


(** *** The files of others *)

Lemma node_at_None_lookup files p : node_at files p = None → files !! p = None.
Proof. unfold node_at. by destruct (parts p). Qed.

Lemma os_mkdir_subseteq p files files' :
  os_mkdir p files = inr files' → files ⊆ files'.
Proof.
  intros (Hn & _ & ->)%os_mkdir_inr.
  by apply insert_subseteq, node_at_None_lookup.
Qed.

Lemma mkdir_from_subseteq n p files files' :
  mkdir_from n p files = inr files' → files ⊆ files'.
Proof.
  revert p files files'. induction n as [|n IH]; intros p files files';
    cbn [mkdir_from].
  - destruct (os_mkdir p files) as [exc|files1] eqn:Hm.
    + destruct exc; try done; case_match; intros; by simplify_eq.
    + intros; simplify_eq. by eapply os_mkdir_subseteq.
  - destruct (os_mkdir p files) as [exc|files1] eqn:Hm.
    + destruct exc; try (case_match; intros; by simplify_eq).
      destruct (mkdir_from n (parent p) files) as [|files1] eqn:Hr; [done|].
      apply IH in Hr.
      destruct (os_mkdir p files1) as [exc'|files2] eqn:Hm'.
      * case_match; intros; by simplify_eq.
      * intros; simplify_eq. etrans; [done|by eapply os_mkdir_subseteq].
    + intros; simplify_eq. by eapply os_mkdir_subseteq.
Qed.

Lemma mkdir_subseteq p w w' r : mkdir p w = (w', r) → fs w ⊆ fs w'.
Proof.
  unfold mkdir, mkdir_parents_exist_ok.
  destruct (mkdir_from _ p (fs w)) eqn:Hm; intros; simplify_eq/=; [done|].
  by eapply mkdir_from_subseteq.
Qed.

Lemma for_each_mkdir_subseteq controllers w w' r :
  for_each (λ ctrl, mkdir (parent (path (dest ctrl)))) controllers w
  = (w', r) →
  fs w ⊆ fs w'.
Proof.
  revert w r. induction controllers as [|c controllers IH]; intros w r;
    cbn [for_each].
  - by intros [= <- <-].
  - unfold mbind at 1, M_bind at 1.
    destruct (mkdir _ w) as [w1 [exc|[]]] eqn:Hm.
    + intros [= <- <-]. by eapply mkdir_subseteq.
    + unfold mbind at 1, M_bind at 1.
      destruct (for_each _ controllers w1) as [w2 [exc|cs]] eqn:Hf;
        intros [= <- <-];
        (etrans; [by eapply mkdir_subseteq|by eapply IH]).
Qed.

Lemma resume_other_files t w w' r q :
  q ≠ path (dest (task_ctrl t)) →
  resume t w = (w', r) → fs w' !! q = fs w !! q.
Proof.
  intros Hq. rewrite resume_eq.
  repeat case_match; intros; simplify_eq; try done.
  all: match goal with Hw : write_text _ _ _ = _ |- _ =>
         apply write_text_only_at in Hw as [_ Hw]; by apply Hw end.
Qed.

Lemma wind_down_other_files q late tasks w w' tasks' :
  Forall (λ t, q ≠ path (dest (task_ctrl t))) tasks →
  wind_down late tasks w = (w', tasks') →
  fs w' !! q = fs w !! q.
Proof.
  revert tasks w. induction late as [|i late IH]; intros tasks w Hq;
    cbn [wind_down].
  - by intros [= <- <-].
  - destruct (tasks !! i) as [t|] eqn:Hi; [|by apply IH].
    destruct (task_done t); [by apply IH|].
    assert (q ≠ path (dest (task_ctrl t))) as Hqt.
    { eapply (Forall_lookup_1 _ _ _ _ Hq Hi). }
    destruct (resume t w) as [w1 [exc|t']] eqn:Hr; intros Hw;
      rewrite <- (resume_other_files _ _ _ _ _ Hqt Hr);
      (eapply IH; [|done]); (apply Forall_insert; [done|]).
    + done.
    + by rewrite (proj1 (resume_inr_task _ _ _ _ Hr)).
Qed.

Lemma gather_other_files q schedule tasks w w' res :
  Forall (λ t, q ≠ path (dest (task_ctrl t))) tasks →
  gather schedule tasks w = (w', res) →
  fs w' !! q = fs w !! q.
Proof.
  revert tasks w. induction schedule as [|i schedule IH]; intros tasks w Hq;
    cbn [gather].
  - by destruct (forallb task_done tasks); intros [= <- <-].
  - destruct (forallb task_done tasks); [by intros [= <- <-]|].
    destruct (tasks !! i) as [t|] eqn:Hi; [|by apply IH].
    destruct (task_done t); [by apply IH|].
    assert (q ≠ path (dest (task_ctrl t))) as Hqt.
    { eapply (Forall_lookup_1 _ _ _ _ Hq Hi). }
    destruct (resume t w) as [w1 [exc|t']] eqn:Hr.
    + destruct (wind_down _ _ w1) as [w2 tasks2] eqn:Hw.
      intros [= <- <-]. rewrite <- (resume_other_files _ _ _ _ _ Hqt Hr).
      eapply wind_down_other_files; [|done].
      by apply Forall_insert.
    + intros Hg. rewrite <- (resume_other_files _ _ _ _ _ Hqt Hr).
      eapply IH; [|done]. apply Forall_insert; [done|].
      by rewrite (proj1 (resume_inr_task _ _ _ _ Hr)).
Qed.

(** X22. [apply] and [monitor] keep the files of others: whatever is in
    the file system at a path that is not the file of a destination of a
    controller involved is still there, unchanged, when the command ends,
    however it ends. *)
Theorem commands_keep_other_files settings w q nd :
  fs w !! q = Some nd →
  (∀ k poll wc ctrl w' r,
     __init__ settings k w = (wc, inr ctrl) →
     ¬ same_file q (path (dest ctrl)) →
     apply settings k poll w = (w', r) →
     fs w' !! q = Some nd)
  ∧ (∀ schedule w0 controllers w' res,
       monitor_setup settings w = (w0, inr controllers) →
       (∀ ctrl, ctrl ∈ controllers → ¬ same_file q (path (dest ctrl))) →
       monitor settings schedule w = (w', res) →
       fs w' !! q = Some nd).
Proof.
  assert (∀ p, ¬ same_file q p → q ≠ p) as Hdiff.
  { intros p Hn ->. apply Hn, same_file_refl. }
  intros Hnd. split.
  - intros k poll wc ctrl w' r Hinit Hq%Hdiff. unfold apply.
    unfold mbind at 1, M_bind at 1. rewrite Hinit.
    pose proof (init_fs _ _ _ _ _ Hinit) as Hfs.
    unfold mbind at 1, M_bind at 1.
    destruct (mkdir _ wc) as [wm [exc|[]]] eqn:Hm.
    + intros [= <- <-]. apply mkdir_subseteq in Hm.
      eapply lookup_weaken; [|done]. by rewrite Hfs.
    + intros Hact.
      assert (fs wm !! q = Some nd) as Hwm.
      { apply mkdir_subseteq in Hm. eapply lookup_weaken; [|done].
        by rewrite Hfs. }
      rewrite <- Hwm.
      destruct poll.
      * by apply (writes_only_at ctrl wm w' r); [right|].
      * by apply (writes_only_at ctrl wm w' r); [left|].
  - intros schedule w0 controllers w' res Hsetup Hq. unfold monitor.
    rewrite Hsetup. intros Hg.
    assert (fs w0 !! q = Some nd) as Hw0.
    { destruct (monitor_setup_inr _ _ _ _ Hsetup) as (wc & l & Hm & Hfs).
      apply for_each_mkdir_subseteq in Hm.
      eapply lookup_weaken; [|done]. by rewrite Hfs. }
    rewrite <- Hw0. eapply gather_other_files; [|done].
    apply Forall_fmap, Forall_forall. intros ctrl Hin. by apply Hdiff, Hq.
Qed.

End WithPlatform.

Section Progress.
Context `{Collaborators}.

(** X19. [monitor] returns only when every stream has ended without an
    exception and every update of every stream was rendered. *)
Theorem monitor_returns_after_every_update settings schedule w w0
    controllers w' :
  monitor_setup settings w = (w0, inr controllers) →
  monitor settings schedule w = (w', Returned) →
  ∀ ctrl,
    ctrl ∈ controllers →
    let stream := backend_poll (backend ctrl) in
    stream.2 = None ∧ (renders ctrl stream.1).2 = None.
Proof.
  intros Hsetup Hg ctrl [i Hi]%list_elem_of_lookup stream. subst stream.
  destruct (monitor_in_progress (H0 := one_spelling) _ _ _ _ _ _ _ Hsetup Hg)
    as (tasks & [Hctrls Hall] & Hfin).
  rewrite <- Hctrls in Hi.
  apply list_lookup_fmap_Some in Hi as (t & -> & Ht).
  destruct (Hall i t Ht) as (used & (Hstream & Hend & Hr & Hd) & _).
  destruct Hd as [Hitems Hnone];
    [by eapply (Forall_lookup_1 _ _ _ _ Hfin)|].
  rewrite Hitems, app_nil_r in Hstream. by rewrite Hstream, <- Hend.
Qed.

(** X20. No update is lost or taken out of order: when [monitor] raises,
    or is observed while it runs, every task has taken a prefix of its
    stream, all of it rendered, and has the rest left; a task that has
    returned has nothing left, and its stream has ended without an
    exception. *)
Theorem no_update_lost settings schedule w w0 controllers w' res :
  monitor_setup settings w = (w0, inr controllers) →
  monitor settings schedule w = (w', res) →
  res ≠ Returned →
  ∀ i ctrl,
    controllers !! i = Some ctrl →
    ∃ used left,
      left_over res !! i = Some left
      ∧ (backend_poll (backend ctrl)).1 = used ++ left
      ∧ (renders ctrl used).2 = None
      ∧ (states res !! i = Some Finished →
         left = [] ∧ (backend_poll (backend ctrl)).2 = None).
Proof.
  intros Hsetup Hg Hres i ctrl Hi.
  destruct (monitor_in_progress (H0 := one_spelling) _ _ _ _ _ _ _ Hsetup Hg)
    as (tasks & [Hctrls Hall] & Htasks).
  rewrite <- Hctrls in Hi.
  apply list_lookup_fmap_Some in Hi as (t & -> & Ht).
  destruct (Hall i t Ht) as (used & (Hstream & Hend & Hr & Hd) & _).
  exists used, (task_items t).
  assert (left_over res !! i = Some (task_items t)
          ∧ states res !! i = Some (task_state t)) as [Hl Hs].
  { destruct res as [|exc l|l]; [done|subst l..];
      cbn [left_over states]; by rewrite !list_lookup_fmap, Ht. }
  split; [done|]. split; [done|]. split; [done|].
  rewrite Hs. intros [= Hf]. rewrite <- Hend. by apply Hd.
Qed.

End Progress.

Section WithPackage.
Context `{Collaborators} `{Package}.

(** X18. Without a settings file: when no file is given and none is found,
    [main] prints one warning that lists the places tried, then the help
    when no subcommand was invoked, and goes on with no settings. The
    commands [get] and [apply] then print that the settings could not be
    loaded and raise [typer.Exit(1)]; the command [self print] prints a
    warning and returns. None of them touches the file system. *)
Theorem commands_without_settings_file ctx locations k poll w :
  resolve_settings_path = NotFoundAt locations →
  let said out := {| fs := fs w; stdout := stdout w ++ out |} in
  let warned :=
    not_found_warning locations
    :: match invoked_subcommand ctx with
       | None => [get_help ctx]
       | Some _ => []
       end in
  main ctx None w = (said warned, inr None)
  ∧ (settings ← main ctx None; get_command settings k poll) w
    = (said (warned ++ ["[red]ERROR[/]: Could not load settings."]),
       inl (Exit 1))
  ∧ (settings ← main ctx None; apply settings k poll) w
    = (said (warned ++ ["[red]ERROR[/]: Could not load settings."]),
       inl (Exit 1))
  ∧ (settings ← main ctx None; print_self_config settings) w
    = (said (warned ++ ["[yellow]WARNING[/]: No settings file found."]),
       inr tt).
Proof.
  intros Hres said warned.
  assert (main ctx None w = (said warned, inr None)) as Hmain.
  { unfold main. rewrite Hres. subst said warned.
    unfold mbind, M_bind, mret, M_ret, print. cbn.
    destruct (invoked_subcommand ctx); cbn; [done|].
    by rewrite <- app_assoc. }
  assert (∀ B (f : option Settings → M B),
            (main ctx None ≫= f) w = f None (said warned)) as Hthen.
  { intros B f. unfold mbind at 1, M_bind at 1. by rewrite Hmain. }
  split; [done|]. rewrite !Hthen. subst said.
  unfold get_command, apply, print_self_config, __init__.
  unfold mbind, M_bind, print, raise. cbn. by rewrite <- !app_assoc.
Qed.

End WithPackage.


Lemma init_reads_settings_witness :
  key ctrl_a = "a" ∧ settings ctrl_a = two_objects.
Proof.
  destruct (init_reads_settings two_objects "a" empty_world empty_world
              ctrl_a eq_refl) as (Hk & Hs & _).
  by split.
Defined.

Lemma init_factory_choice_witness :
  __init__ (Some empty_new) "example" empty_world
  = (reported empty_world "init" (VDict (OBJECTS empty_new)), inl (Exit 1)).
Proof.
  destruct (init_factory_choice (H := example_collaborators)
              empty_new "example" _ _ (VStr "slow")
              {| class_new := λ _, inr (fixed_backend "b0"
                                          (["b1"; "b2"; "b3"], None));
                 class_call := λ _, inr (fixed_backend "b0"
                                           (["b1"; "b2"; "b3"], None)) |}
              empty_world eq_refl eq_refl eq_refl eq_refl) as [Hinit _].
  exact (proj1 (Hinit eq_refl) eq_refl).
Defined.

Lemma actions_touch_only_their_target_witness :
  stdout (write ctrl_b world_b).1 = stdout world_b.
Proof.
  exact (proj1 (proj1 (actions_touch_only_their_target ctrl_b world_b _ _)
                  (or_introl (surjective_pairing _)))).
Defined.


Lemma setup_is_all_or_nothing_witness :
  monitor (Some second_broken) [0; 1] empty_world
  = (reported empty_world "source" (VDict (OBJECTS second_broken)),
     Raised (Exit 1) []).
Proof.
  refine (proj2 (proj2 (setup_is_all_or_nothing second_broken ["b"] "broken"
                          [] empty_world _ (Exit 1) eq_refl _ eq_refl))
            [0; 1]).
  intros k' [->|[]%elem_of_nil]%elem_of_cons. eexists. reflexivity.
Defined.

Lemma monitor_one_object_is_apply_poll_witness :
  match apply (Some one_object) "b" true empty_world with
  | (w', inr _) =>
      monitor (Some one_object) [0; 0; 0; 0] empty_world = (w', Returned)
  | (w', inl exc) =>
      (monitor (Some one_object) [0; 0; 0; 0] empty_world).1 = w'
      ∧ raised_by (monitor (Some one_object) [0; 0; 0; 0] empty_world).2
        = Some exc
  end.
Proof.
  exact (monitor_one_object_is_apply_poll one_object "b" _ empty_world
           empty_world
           {| backend := fixed_backend "b0" (["b1"; "b2"; "b3"], None);
              dest := {| path := Path_of_str "/etc/b/b.conf";
                         format := FormatT "raw" |};
              key := "b"; settings := one_object;
              src_format := VStr "raw" |}
           eq_refl eq_refl).
Defined.

Lemma commands_without_settings_file_witness :
  (main (H0 := package_without_settings) ctx_apply None empty_world).2
  = inr None.
Proof.
  exact (f_equal snd
           (proj1 (commands_without_settings_file
                     (H0 := package_without_settings) ctx_apply _ "b" false
                     empty_world eq_refl))).
Defined.

Lemma monitor_returns_after_every_update_witness :
  (renders ctrl_c (backend_poll (backend ctrl_c)).1).2 = None.
Proof.
  assert (monitor_setup (Some two_slow) empty_world
          = ((monitor_setup (Some two_slow) empty_world).1,
             inr [{| backend := fixed_backend "b0" (["b1"; "b2"; "b3"], None);
                     dest := {| path := Path_of_str "/etc/b/b.conf";
                                format := FormatT "raw" |};
                     key := "b"; settings := two_slow;
                     src_format := VStr "raw" |}; ctrl_c])) as Hsetup
    by reflexivity.
  assert (monitor (Some two_slow) [0; 1; 1; 0; 1; 0; 0; 1] empty_world
          = ((monitor (Some two_slow) [0; 1; 1; 0; 1; 0; 0; 1]
                empty_world).1, Returned)) as Hrun
    by reflexivity.
  refine (proj2 (monitor_returns_after_every_update _ _ _ _ _ _ Hsetup Hrun
                   ctrl_c _)).
  apply elem_of_cons; right. apply elem_of_cons; by left.
Defined.

Lemma no_update_lost_witness :
  ∃ used left,
    left_over (monitor (Some two_objects) [0; 1; 0; 1] empty_world).2
      !! 1 = Some left
    ∧ (backend_poll (backend ctrl_b)).1 = used ++ left
    ∧ (renders ctrl_b used).2 = None
    ∧ (states (monitor (Some two_objects) [0; 1; 0; 1] empty_world).2
         !! 1 = Some Finished →
       left = [] ∧ (backend_poll (backend ctrl_b)).2 = None).
Proof.
  apply (no_update_lost (Some two_objects) [0; 1; 0; 1] empty_world
           world_ab [ctrl_a; ctrl_b] _ _ eq_refl (surjective_pairing _));
    [by vm_compute|reflexivity].
Defined.


Lemma write_again_changes_nothing_witness :
  write ctrl_b (write ctrl_b world_b).1 = ((write ctrl_b world_b).1, inr tt).
Proof.
  apply (write_again_changes_nothing ctrl_b ctrl_b world_b); reflexivity.
Defined.

Lemma commands_keep_other_files_witness :
  fs (apply (Some templated) "t" false (template_world "hello")).1
    !! Path_of_str "/templates/t.j2"
  = Some (File "hello").
Proof.
  refine (proj1 (commands_keep_other_files (H0 := one_spelling)
                   (Some templated)
                   (template_world "hello") (Path_of_str "/templates/t.j2")
                   (File "hello") eq_refl)
            "t" false _ (templated_ctrl "hello") _ _ eq_refl _
            (surjective_pairing _)).
  by vm_compute.
Defined.

End CliExtras.
